(** * ngx-surreal: the promise-to-stream adapter and its registration module

    A shallow embedding of [src/lib/surreal.module.ts] and
    [src/lib/surreal.service.ts].  The adapter is plumbing around three
    external parties, all of which are modelled here only as far as the
    source relies on them:

    - the database driver ([new Surreal()] and its asynchronous methods),
      an opaque state machine supplied as a parameter;
    - RxJS ([from] applied to a promise, [subscribe]);
    - the dependency-injection container (hierarchical injectors,
      [@Optional() @SkipSelf()], [useValue] / [useFactory] providers,
      [providedIn: 'root'], memoised [computed] cells).

    Everything is written in explicit state-passing style over a [world]
    that holds the heap of driver clients, the heap of service objects, the
    injector tree and the list of stream subscriptions.

    What is assumed of the three parties:

    - a driver method either throws synchronously, before it has done
      anything (as [rpc] does while no socket is open), or updates the
      driver's state and returns a promise; the [ready] property holds a
      promise, or something [from] refuses with an exception; how a
      promise settles is fixed by the driver state at the time of the
      call;
    - [from(promise)] sends [next] then [complete] on fulfilment and
      [error] on rejection, to every subscriber of the stream; a subscriber
      stays subscribed; an error that meets no error callback is reported
      to the host;
    - providers are instantiated on first demand and once per owning
      injector; a module class is instantiated when its injector is created;
      a [computed] whose body reads no signal is evaluated once. *)

From stdpp Require Import base numbers option list strings.

Set Default Proof Using "Type".
Set Warnings "-register-all".
Local Open Scope string_scope.
Local Open Scope list_scope.

(** ** JavaScript values *)

(** The values that can flow through the adapter: arguments, resolved
    results, rejection reasons.  Objects keep their own enumerable fields in
    insertion order; functions are identified by a label. *)
Inductive value : Type :=
  | VUndefined
  | VNull
  | VBool (b : bool)
  | VNum (n : Z)
  | VStr (s : string)
  | VArr (items : list value)
  | VObj (fields : list (string * value))
  | VURL (href : string)
  | VFn (label : string)
  | VError (name message : string).

(** [!v] is [negb (truthy v)]: the falsy values are [undefined], [null],
    [false], [0] and the empty string. *)
Definition truthy (v : value) : bool :=
  match v with
  | VUndefined | VNull => false
  | VBool b => b
  | VNum n => negb (n =? 0)%Z
  | VStr s => negb (String.eqb s "")
  | VArr _ | VObj _ | VURL _ | VFn _ | VError _ _ => true
  end.

(** [typeof v === 'string'] *)
Definition typeof_is_string (v : value) : bool :=
  match v with VStr _ => true | _ => false end.

(** Binding of the [i]-th positional parameter of a call: a missing
    argument reads as [undefined]. *)
Definition arg (i : nat) (args : list value) : value := nth i args VUndefined.

(** [() => void 0] *)
Definition noop_callback : value := VFn "() => void 0".

(** ** The wrapped driver *)

(** How a promise eventually settles.  [Pending] stands for a promise that
    never settles. *)
Inductive outcome : Type :=
  | Resolves (v : value)
  | Rejects (e : value)
  | Pending.

(** The driver is opaque.  A method call first passes the method's own
    synchronous checks: [dthrows] answers the exception the call throws
    there, before anything has happened.  A call that gets past them
    updates the driver's internal state and returns a promise, which is
    what [dcall] describes.  [dprop] reads one of the plain properties
    [connection], [emitter], [status]; [dready] is the promise held in the
    [ready] property, and [dunready] the exception [from(this.db.ready)]
    ends in where the property holds none. *)
Record Driver : Type := {
  dstate : Type;
  dnew : dstate;
  dthrows : string -> list value -> dstate -> option value;
  dcall : string -> list value -> dstate -> dstate * outcome;
  dprop : string -> dstate -> value;
  dunready : dstate -> option value;
  dready : dstate -> outcome
}.

(** The host platform: the driver package plus the URL parser behind
    [new URL(s)], which answers [None] where the constructor throws a
    [TypeError]. *)
Record Platform : Type := {
  surreal : Driver;
  URL_parse : string -> option string
}.

(** ** Configuration ([surreal.config.ts]) *)

(** [SurrealConfig = ConnectionOptions & { url: string }]: the endpoint and
    the remaining connection options as an object's fields. *)
Record SurrealConfig : Type := {
  url : string;
  options : list (string * value)
}.

(** ** RxJS *)

(** What a driver interaction was: a method call or a read of [ready]. *)
Inductive request : Type :=
  | Call (method : string) (args : list value)
  | GetReady.

(** One line of a client's journal: the request and how its promise
    settles. *)
Record entry : Type := {
  req : request;
  settles : outcome
}.

(** A promise is identified by the client that issued it and its position in
    that client's journal. *)
Record promise : Type := {
  pclient : nat;
  pindex : nat
}.

(** The only observables the adapter builds are [from(promise)]. *)
Inductive observable : Type :=
  | FromPromise (p : promise).

Definition from (p : promise) : observable := FromPromise p.

Definition source (o : observable) : promise :=
  match o with FromPromise p => p end.

Inductive notification : Type :=
  | Next (v : value)
  | Error (e : value)
  | Complete.

(** [from(promise)]: on fulfilment the subscriber gets [next] then
    [complete]; on rejection it gets [error]; nothing while pending. *)
Definition notifications (oc : outcome) : list notification :=
  match oc with
  | Resolves v => [Next v; Complete]
  | Rejects e => [Error e]
  | Pending => []
  end.

(** The callbacks a subscriber passed to [subscribe]. *)
Record observer : Type := {
  on_next : bool;
  on_error : bool;
  on_complete : bool
}.

(** [subscribe()] with no argument at all. *)
Definition no_handlers : observer :=
  {| on_next := false; on_error := false; on_complete := false |}.

Definition full_observer : observer :=
  {| on_next := true; on_error := true; on_complete := true |}.

(** What a notification does once it reaches a subscriber: it runs the
    matching callback, or, for an error nobody handles, it is reported to
    the host as an unhandled error. *)
Inductive effect : Type :=
  | Handled (n : notification)
  | Unhandled (e : value).

Definition deliver (ob : observer) (n : notification) : list effect :=
  match n with
  | Next v => if on_next ob then [Handled n] else []
  | Complete => if on_complete ob then [Handled n] else []
  | Error e => if on_error ob then [Handled n] else [Unhandled e]
  end.

Definition effects (ob : observer) (oc : outcome) : list effect :=
  concat (map (deliver ob) (notifications oc)).

(** ** The world *)

Section World.
Context {P : Platform}.

(** A [new Surreal()] instance: driver state and journal. *)
Record client : Type := {
  dst : dstate (surreal P);
  journal : list entry
}.

(** A [SurrealService] object.  The three [computed] cells remember the
    value of their first read. *)
Record service : Type := {
  db : nat;
  config : SurrealConfig;
  connection_cell : option value;
  emitter_cell : option value;
  status_cell : option value
}.

(** The value slot of a provider record: not asked for yet, being
    built (the marker that detects circular dependencies), or built. *)
Inductive slot : Type :=
  | NotYet
  | Circular
  | Built (s : nat).

(** An injector of the container.  [module_instance] tells whether a
    [SurrealModule] object lives here, [config_provider] is the
    [useValue] record for [SURREAL_CONFIG_TOKEN], [service_provider] the
    [useFactory] record for [SurrealService], and [service_instance] the
    slot for the adapter this injector owns. *)
Record injector : Type := {
  parent : option nat;
  module_instance : bool;
  config_provider : option SurrealConfig;
  service_provider : bool;
  service_instance : slot
}.

Record world : Type := {
  clients : list client;
  services : list service;
  injectors : list injector;
  subscriptions : list (promise * observer)
}.

Definition empty_world : world :=
  {| clients := []; services := []; injectors := []; subscriptions := [] |}.

Definition set_clients (f : list client -> list client) (w : world) : world :=
  {| clients := f (clients w); services := services w;
     injectors := injectors w; subscriptions := subscriptions w |}.

Definition set_services (f : list service -> list service) (w : world) : world :=
  {| clients := clients w; services := f (services w);
     injectors := injectors w; subscriptions := subscriptions w |}.

Definition set_injectors (f : list injector -> list injector) (w : world) : world :=
  {| clients := clients w; services := services w;
     injectors := f (injectors w); subscriptions := subscriptions w |}.

Definition set_subscriptions
    (f : list (promise * observer) -> list (promise * observer)) (w : world) : world :=
  {| clients := clients w; services := services w;
     injectors := injectors w; subscriptions := f (subscriptions w) |}.

(** *** Computations: state plus synchronous exceptions *)

Inductive result (A : Type) : Type :=
  | Ok (a : A)
  | Throw (e : value).
Global Arguments Ok {A} a.
Global Arguments Throw {A} e.

Definition M (A : Type) : Type := world -> result A * world.

Definition ret {A} (a : A) : M A := fun w => (Ok a, w).

Definition throw {A} (e : value) : M A := fun w => (Throw e, w).

Definition bind {A B} (m : M A) (k : A -> M B) : M B :=
  fun w =>
    match m w with
    | (Ok a, w') => k a w'
    | (Throw e, w') => (Throw e, w')
    end.

Definition gets {A} (f : world -> A) : M A := fun w => (Ok (f w), w).

Definition modify (f : world -> world) : M unit := fun w => (Ok tt, f w).

(** A reference that no constructor ever handed out. *)
Definition dangling : value := VError "ReferenceError" "dangling reference".

Definition deref {A} (o : option A) : M A :=
  match o with
  | Some a => ret a
  | None => throw dangling
  end.
End World.

Global Arguments client : clear implicits.
Global Arguments world : clear implicits.
Global Arguments M : clear implicits.

Declare Scope js_scope.
Delimit Scope js_scope with js.
Notation "'let*' x ':=' m 'in' k" := (bind m (fun x => k))
  (at level 10, x name, m at level 100, k at level 200) : js_scope.
Notation "m ';;;' k" := (bind m (fun _ => k))
  (at level 100, k at level 200, right associativity) : js_scope.
Local Open Scope js_scope.

(** ** Primitives the adapter is written with *)

Section Primitives.
Context {P : Platform}.

(** [new Surreal()] *)
Definition new_Surreal : M P nat :=
  fun w =>
    (Ok (length (clients w)),
     set_clients (fun cs => cs ++ [{| dst := dnew (surreal P); journal := [] |}]) w).

(** [new URL(s)] throws a [TypeError] where the parser fails. *)
Definition new_URL (s : string) : M P value :=
  match URL_parse P s with
  | Some href => ret (VURL href)
  | None => throw (VError "TypeError" "Invalid URL")
  end.

(** The exception a request ends in before it has started, if any. *)
Definition refusal (r : request) (st : dstate (surreal P)) : option value :=
  match r with
  | Call m args => dthrows (surreal P) m args st
  | GetReady => dunready (surreal P) st
  end.

(** What the driver does with a request it takes on: its next state and
    how the promise it returns settles. *)
Definition perform (r : request) (st : dstate (surreal P)) : dstate (surreal P) * outcome :=
  match r with
  | Call m args => dcall (surreal P) m args st
  | GetReady => (st, dready (surreal P) st)
  end.

Definition record (r : request) (cl : client P) : client P :=
  {| dst := (perform r (dst cl)).1;
     journal := journal cl ++ [{| req := r; settles := (perform r (dst cl)).2 |}] |}.

(** A driver interaction on client [c]: either the driver throws, and the
    exception goes up to the caller of the adapter method, which catches
    nothing; or the driver moves to its next state, the journal grows by
    one line, and the promise of that line is handed back. *)
Definition interact (c : nat) (r : request) : M P promise :=
  let* cl := (fun w => deref (clients w !! c) w) in
  match refusal r (dst cl) with
  | Some e => throw e
  | None =>
      modify (set_clients <[c := record r cl]>) ;;;
      ret {| pclient := c; pindex := length (journal cl) |}
  end.

(** [this] *)
Definition self (this : nat) : M P service :=
  fun w => deref (services w !! this) w.

(** [this.db.m(...args)] *)
Definition db_call (this : nat) (m : string) (args : list value) : M P promise :=
  let* sv := self this in
  interact (db sv) (Call m args).

(** [this.db.ready] *)
Definition db_ready (this : nat) : M P promise :=
  let* sv := self this in
  interact (db sv) GetReady.

(** [observable.subscribe(observer)] *)
Definition subscribe (o : observable) (ob : observer) : M P unit :=
  modify (set_subscriptions (fun ss => ss ++ [(source o, ob)])).

(** How the promise behind a stream settles, read off the journal. *)
Definition settlement (w : world P) (p : promise) : option outcome :=
  cl ← clients w !! pclient p;
  e ← journal cl !! pindex p;
  Some (settles e).

(** The driver request behind a stream. *)
Definition request_of (w : world P) (p : promise) : option request :=
  cl ← clients w !! pclient p;
  e ← journal cl !! pindex p;
  Some (req e).

(** Everything a subscriber of stream [o] is ever sent. *)
Definition emissions (w : world P) (o : observable) : list notification :=
  match settlement w (source o) with
  | Some oc => notifications oc
  | None => []
  end.

(** The journal of client [c]. *)
Definition journal_of (w : world P) (c : nat) : list entry :=
  match clients w !! c with
  | Some cl => journal cl
  | None => []
  end.

Definition requests_of (w : world P) (c : nat) : list request :=
  map req (journal_of w c).
End Primitives.

(** ** The dependency-injection container *)

(** The injection token of [surreal.module.ts]. *)
Definition SURREAL_CONFIG_TOKEN : string := "__SURREAL_CONFIG__".

Section Container.
Context {P : Platform}.

(** Resolution walks from an injector toward the root and stops at the
    first injector where [f] answers.  Injectors only ever point at older
    injectors, so [length injs] steps are enough. *)
Fixpoint lookup_up {A} (injs : list injector) (f : injector -> option A)
    (fuel : nat) (j : nat) : option A :=
  match fuel with
  | 0 => None
  | S fuel' =>
      match injs !! j with
      | None => None
      | Some i =>
          match f i with
          | Some a => Some a
          | None =>
              match parent i with
              | Some p => lookup_up injs f fuel' p
              | None => None
              end
          end
      end
  end.

Definition resolve {A} (w : world P) (f : injector -> option A) (j : nat) : option A :=
  lookup_up (injectors w) f (length (injectors w)) j.

(** [@Optional() @SkipSelf() parentModule]: the lookup starts at the
    parent of the injector under construction and answers [undefined]
    when no ancestor holds a [SurrealModule]. *)
Definition parent_module (w : world P) (parent : option nat) : bool :=
  match parent with
  | None => false
  | Some p =>
      bool_decide (is_Some
        (resolve w (fun i => if module_instance i then Some () else None) p))
  end.

(** [inject(SURREAL_CONFIG_TOKEN)] from injector [j]; no provider on the
    way to the root is a [NullInjectorError]. *)
Definition inject_config (j : nat) : M P SurrealConfig :=
  fun w =>
    match resolve w config_provider j with
    | Some cfg => (Ok cfg, w)
    | None =>
        (Throw (VError "NullInjectorError"
                  ("No provider for InjectionToken " ++ SURREAL_CONFIG_TOKEN)%string), w)
    end.

(** The injector that owns the [SurrealService] seen from [j]: the
    nearest one holding a provider for it, and failing that the root,
    where [providedIn: 'root'] places it. *)
Fixpoint owner_up (injs : list injector) (fuel : nat) (j : nat) : option nat :=
  match fuel with
  | 0 => None
  | S fuel' =>
      match injs !! j with
      | None => None
      | Some i =>
          if service_provider i
          then Some j
          else match parent i with
               | Some p => owner_up injs fuel' p
               | None => Some j
               end
      end
  end.

Definition owner (w : world P) (j : nat) : option nat :=
  owner_up (injectors w) (length (injectors w)) j.

Definition set_instance (sl : slot) (i : injector) : injector :=
  {| parent := parent i; module_instance := module_instance i;
     config_provider := config_provider i; service_provider := service_provider i;
     service_instance := sl |}.

(** The error of a provider asked for while it is being built. *)
Definition circular_dependency : value :=
  VError "RuntimeError" "NG0200: Circular dependency in DI detected for SurrealService".
End Container.

(** ** [surreal.module.ts] *)

Module SurrealModule.
Section Module.
Context {P : Platform}.

Definition already_loaded : value :=
  VError "Error"
    "SurrealModule is already loaded. Import it in the AppModule or AppConfig only".

(** [constructor(@Optional() @SkipSelf() parentModule?: SurrealModule)] *)
Definition new (parentModule : bool) : M P unit :=
  if parentModule then throw already_loaded else ret ().

Inductive provider : Type :=
  | UseValue (token : string) (useValue : SurrealConfig)
  | UseFactory (deps : list string).

(** [ModuleWithProviders<SurrealModule>]; [ngModule] is always
    [SurrealModule]. *)
Record ModuleWithProviders : Type := {
  providers : list provider
}.

(** [static forRoot(config)] *)
Definition forRoot (config : SurrealConfig) : ModuleWithProviders :=
  {| providers := [ UseValue SURREAL_CONFIG_TOKEN config;
                    UseFactory [SURREAL_CONFIG_TOKEN] ] |}.
End Module.
End SurrealModule.

(** ** [surreal.service.ts] *)

Module SurrealService.
Section Service.
Context {P : Platform}.

(** *** The [computed] accessors

    A [computed] cell evaluates its body at the first read and keeps
    the value; it is evaluated again only when a signal read by the
    body changes, and the bodies below read none. *)
Inductive accessor : Type := Connection | Emitter | Status.

Definition property (a : accessor) : string :=
  match a with
  | Connection => "connection"
  | Emitter => "emitter"
  | Status => "status"
  end.

Definition cell (a : accessor) (sv : service) : option value :=
  match a with
  | Connection => connection_cell sv
  | Emitter => emitter_cell sv
  | Status => status_cell sv
  end.

Definition fill (a : accessor) (v : value) (sv : service) : service :=
  match a with
  | Connection =>
      {| db := db sv; config := config sv; connection_cell := Some v;
         emitter_cell := emitter_cell sv; status_cell := status_cell sv |}
  | Emitter =>
      {| db := db sv; config := config sv; connection_cell := connection_cell sv;
         emitter_cell := Some v; status_cell := status_cell sv |}
  | Status =>
      {| db := db sv; config := config sv; connection_cell := connection_cell sv;
         emitter_cell := emitter_cell sv; status_cell := Some v |}
  end.

(** [this.db.<property>], read live from the driver. *)
Definition db_prop (this : nat) (a : accessor) : M P value :=
  let* sv := self this in
  let* cl := (fun w => deref (clients w !! db sv) w) in
  ret (dprop (surreal P) (property a) (dst cl)).

Definition computed (this : nat) (a : accessor) : M P value :=
  let* sv := self this in
  match cell a sv with
  | Some v => ret v
  | None =>
      let* v := db_prop this a in
      modify (set_services <[this := fill a v sv]>) ;;;
      ret v
  end.

(** [connection = computed(() => this.db.connection)] *)
Definition connection (this : nat) : M P value := computed this Connection.

(** [emitter = computed(() => this.db.emitter)] *)
Definition emitter (this : nat) : M P value := computed this Emitter.

(** [status = computed(() => this.db.status)] *)
Definition status (this : nat) : M P value := computed this Status.

(** *** Methods, in source order *)

Definition authenticate (this : nat) (args : list value) : M P observable :=
  let* p := db_call this "authenticate" args in ret (from p).

Definition close (this : nat) : M P observable :=
  let* p := db_call this "close" [] in ret (from p).

Definition connect (this : nat) : M P observable :=
  let* sv := self this in
  let '(url, options) := (url (config sv), options (config sv)) in
  let* u := new_URL url in
  let* p := db_call this "connect" [u; VObj options] in
  ret (from p).

Definition create (this : nat) (thing data : value) : M P observable :=
  let* p := db_call this "create" [thing; data] in ret (from p).

Definition delete (this : nat) (thing : value) : M P observable :=
  let* p := db_call this "delete" [thing] in ret (from p).

Definition export (this : nat) (args : list value) : M P observable :=
  let* p := db_call this "export" args in ret (from p).

Definition import (this : nat) (args : list value) : M P observable :=
  let* p := db_call this "import" args in ret (from p).

Definition info (this : nat) : M P observable :=
  let* p := db_call this "info" [] in ret (from p).

Definition insert (this : nat) (table data : value) : M P observable :=
  if negb (truthy table)
  then let* p := db_call this "insert" [data] in ret (from p)
  else let* p := db_call this "insert" [table; data] in ret (from p).

Definition insertRelation (this : nat) (thing data : value) : M P observable :=
  if negb (truthy thing)
  then let* p := db_call this "insertRelation" [data] in ret (from p)
  else let* p := db_call this "insertRelation" [thing; data] in ret (from p).

Definition invalidate (this : nat) : M P observable :=
  let* p := db_call this "invalidate" [] in ret (from p).

Definition kill (this : nat) (args : list value) : M P observable :=
  let* p := db_call this "kill" args in ret (from p).

Definition let_ (this : nat) (args : list value) : M P observable :=
  let* p := db_call this "let" args in ret (from p).

Definition live (this : nat) (args : list value) : M P observable :=
  let* p := db_call this "live" args in ret (from p).

Definition merge (this : nat) (thing data : value) : M P observable :=
  let* p := db_call this "merge" [thing; data] in ret (from p).

Definition patch (this : nat) (thing data diff : value) : M P observable :=
  let* p := db_call this "patch" [thing; data; diff] in ret (from p).

Definition ping (this : nat) : M P observable :=
  let* p := db_call this "ping" [] in ret (from p).

Definition query (this : nat) (args : list value) : M P observable :=
  let* p := db_call this "query" args in ret (from p).

Definition queryRaw (this : nat) (args : list value) : M P observable :=
  let* p := db_call this "queryRaw" args in ret (from p).

Definition ready (this : nat) : M P observable :=
  let* p := db_ready this in ret (from p).

Definition relate (this : nat) (fromRecord thing toRecord data : value) : M P observable :=
  let* p := db_call this "relate" [fromRecord; thing; toRecord; data] in ret (from p).

Definition rpc (this : nat) (args : list value) : M P observable :=
  let* p := db_call this "rpc" args in ret (from p).

Definition run (this : nat) (name versionOrArgs args : value) : M P observable :=
  if typeof_is_string versionOrArgs
  then let* p := db_call this "run" [name; versionOrArgs; args] in ret (from p)
  else let* p := db_call this "run" [name; args] in ret (from p).

Definition select (this : nat) (thing : value) : M P observable :=
  let* p := db_call this "select" [thing] in ret (from p).

Definition signin (this : nat) (args : list value) : M P observable :=
  let* p := db_call this "signin" args in ret (from p).

Definition signup (this : nat) (args : list value) : M P observable :=
  let* p := db_call this "signup" args in ret (from p).

Definition subscribeLive (this : nat) (args : list value) : M P observable :=
  let* p := db_call this "subscribeLive" args in ret (from p).

Definition unsubscribeLive (this : nat) (args : list value) : M P observable :=
  let* p := db_call this "unSubscribeLive" args in ret (from p).

Definition unset (this : nat) (args : list value) : M P observable :=
  let* p := db_call this "unset" args in ret (from p).

Definition update (this : nat) (thing data : value) : M P observable :=
  let* p := db_call this "update" [thing; data] in ret (from p).

Definition upsert (this : nat) (thing data : value) : M P observable :=
  let* p := db_call this "upsert" [thing; data] in ret (from p).

Definition use (this : nat) (options : value) : M P observable :=
  let* p := db_call this "use" [options] in ret (from p).

Definition version (this : nat) : M P observable :=
  let* p := db_call this "version" [] in ret (from p).

(** *** Construction

    Field initialisers run in declaration order: the three [computed]
    cells (empty), [db = new Surreal()], [config =
    inject(SURREAL_CONFIG_TOKEN)]; then the constructor body
    [this.connect().subscribe()].  [inj] is the injector in whose
    context the object is built. *)
Definition new (inj : nat) : M P nat :=
  let* c := new_Surreal in
  let* cfg := inject_config inj in
  let* this := (fun w =>
    (Ok (length (services w)),
     set_services (fun ss => ss ++ [{| db := c; config := cfg;
                                      connection_cell := None;
                                      emitter_cell := None;
                                      status_cell := None |}]) w)) in
  let* o := connect this in
  subscribe o no_handlers ;;;
  ret this.
End Service.
End SurrealService.

(** The revision of the service that is kept next to the module in
    [surreal.module.ts]; only the methods that differ from the current
    revision are repeated. *)
Module PreviousService.
Section Service.
Context {P : Platform}.

Definition insert (this : nat) (thing data : value) : M P observable :=
  let* p := db_call this "insert" [thing; data] in ret (from p).

Definition queryRaw (this : nat) (args : list value) : M P observable :=
  let* p := db_call this "query_raw" args in ret (from p).

Definition signin (this : nat) (vars : value) : M P observable :=
  let* p := db_call this "signin" [vars] in ret (from p).

Definition signup (this : nat) (vars : value) : M P observable :=
  let* p := db_call this "signup" [vars] in ret (from p).

Definition unsubscribeLive (this : nat) (queryUuid : value) : M P observable :=
  let* p := db_call this "unSubscribeLive" [queryUuid; noop_callback] in ret (from p).
End Service.
End PreviousService.

(** ** Registration and retrieval *)

Section Registration.
Context {P : Platform}.

(** [SurrealFactory = () => new SurrealService()], run in the injection
    context of [inj]. *)
Definition SurrealFactory (inj : nat) : M P nat := SurrealService.new inj.

(** How the owning injector [o] builds the adapter: through the
    [useFactory] provider of [forRoot], whose [deps] are resolved first and
    handed to the factory (which ignores them); or, where no provider was
    registered, through the class itself ([providedIn: 'root']). *)
Definition build (o : nat) (i : injector) : M P nat :=
  if service_provider i
  then let* _ := inject_config o in SurrealFactory o
  else SurrealService.new o.

(** The [useValue] of the last provider for the configuration token:
    later providers override earlier ones. *)
Definition provided_config (ps : list SurrealModule.provider) : option SurrealConfig :=
  last (omap (fun p => match p with
                       | SurrealModule.UseValue _ cfg => Some cfg
                       | SurrealModule.UseFactory _ => None
                       end) ps).

Definition provides_service (ps : list SurrealModule.provider) : bool :=
  existsb (fun p => match p with
                    | SurrealModule.UseFactory _ => true
                    | SurrealModule.UseValue _ _ => false
                    end) ps.

(** The records of a new injector: the providers of every import are
    collected, later ones overriding earlier ones; nothing is built
    yet. *)
Definition created (parent : option nat)
    (imports : list SurrealModule.ModuleWithProviders) : injector :=
  let ps := concat (map SurrealModule.providers imports) in
  {| parent := parent;
     module_instance := negb (bool_decide (imports = []));
     config_provider := provided_config ps;
     service_provider := provides_service ps;
     service_instance := NotYet |}.

(** Creating an injector below [parent] whose module graph imports
    [SurrealModule.forRoot(..)] once per element of [imports].  The
    providers of every import are collected; the module class itself is
    instantiated once, however often it is imported, and a throwing
    module constructor aborts the creation. *)
Definition create_injector (parent : option nat)
    (imports : list SurrealModule.ModuleWithProviders) : M P nat :=
  (match parent with
   | Some p => let* _ := (fun w => deref (injectors w !! p) w) in ret ()
   | None => ret ()
   end) ;;;
  let imported := negb (bool_decide (imports = [])) in
  (if imported
   then let* parentModule := gets (fun w => parent_module w parent) in
        SurrealModule.new parentModule
   else ret ()) ;;;
  fun w =>
    (Ok (length (injectors w)),
     set_injectors (fun js => js ++ [created parent imports]) w).

(** [inject(SurrealService)] from injector [j]: the owning injector
    builds the adapter on first demand and hands the same object out
    afterwards.  The slot is marked while the factory runs; a factory
    that throws leaves the mark behind, and later requests fail on
    it, as the container does in development mode. *)
Definition inject_service (j : nat) : M P nat :=
  let* o := (fun w => deref (owner w j) w) in
  let* i := (fun w => deref (injectors w !! o) w) in
  match service_instance i with
  | Built s => ret s
  | Circular => throw circular_dependency
  | NotYet =>
      modify (set_injectors (fun js => <[o := set_instance Circular i]> js)) ;;;
      let* s := build o i in
      modify (set_injectors (fun js => <[o := set_instance (Built s) i]> js)) ;;;
      ret s
  end.
End Registration.

(** ** The public method surface, by name *)

Module Op.
Inductive operation : Type :=
  | authenticate | close | connect | create | delete | export | import | info
  | insert | insertRelation | invalidate | kill | let_ | live | merge | patch
  | ping | query | queryRaw | ready | relate | rpc | run | select | signin
  | signup | subscribeLive | unsubscribeLive | unset | update | upsert | use
  | version.
End Op.
Abbreviation operation := Op.operation.

Section Dispatch.
Context {P : Platform}.

(** [service.<op>(...args)] *)
Definition invoke (this : nat) (o : operation) (args : list value) : M P observable :=
  match o with
  | Op.authenticate => SurrealService.authenticate this args
  | Op.close => SurrealService.close this
  | Op.connect => SurrealService.connect this
  | Op.create => SurrealService.create this (arg 0 args) (arg 1 args)
  | Op.delete => SurrealService.delete this (arg 0 args)
  | Op.export => SurrealService.export this args
  | Op.import => SurrealService.import this args
  | Op.info => SurrealService.info this
  | Op.insert => SurrealService.insert this (arg 0 args) (arg 1 args)
  | Op.insertRelation => SurrealService.insertRelation this (arg 0 args) (arg 1 args)
  | Op.invalidate => SurrealService.invalidate this
  | Op.kill => SurrealService.kill this args
  | Op.let_ => SurrealService.let_ this args
  | Op.live => SurrealService.live this args
  | Op.merge => SurrealService.merge this (arg 0 args) (arg 1 args)
  | Op.patch => SurrealService.patch this (arg 0 args) (arg 1 args) (arg 2 args)
  | Op.ping => SurrealService.ping this
  | Op.query => SurrealService.query this args
  | Op.queryRaw => SurrealService.queryRaw this args
  | Op.ready => SurrealService.ready this
  | Op.relate =>
      SurrealService.relate this (arg 0 args) (arg 1 args) (arg 2 args) (arg 3 args)
  | Op.rpc => SurrealService.rpc this args
  | Op.run => SurrealService.run this (arg 0 args) (arg 1 args) (arg 2 args)
  | Op.select => SurrealService.select this (arg 0 args)
  | Op.signin => SurrealService.signin this args
  | Op.signup => SurrealService.signup this args
  | Op.subscribeLive => SurrealService.subscribeLive this args
  | Op.unsubscribeLive => SurrealService.unsubscribeLive this args
  | Op.unset => SurrealService.unset this args
  | Op.update => SurrealService.update this (arg 0 args) (arg 1 args)
  | Op.upsert => SurrealService.upsert this (arg 0 args) (arg 1 args)
  | Op.use => SurrealService.use this (arg 0 args)
  | Op.version => SurrealService.version this
  end.

(** The driver method an operation delegates to. *)
Definition driver_method (o : operation) : string :=
  match o with
  | Op.authenticate => "authenticate" | Op.close => "close" | Op.connect => "connect"
  | Op.create => "create" | Op.delete => "delete" | Op.export => "export"
  | Op.import => "import" | Op.info => "info" | Op.insert => "insert"
  | Op.insertRelation => "insertRelation" | Op.invalidate => "invalidate"
  | Op.kill => "kill" | Op.let_ => "let" | Op.live => "live" | Op.merge => "merge"
  | Op.patch => "patch" | Op.ping => "ping" | Op.query => "query"
  | Op.queryRaw => "queryRaw" | Op.ready => "ready" | Op.relate => "relate"
  | Op.rpc => "rpc" | Op.run => "run" | Op.select => "select" | Op.signin => "signin"
  | Op.signup => "signup" | Op.subscribeLive => "subscribeLive"
  | Op.unsubscribeLive => "unSubscribeLive" | Op.unset => "unset"
  | Op.update => "update" | Op.upsert => "upsert" | Op.use => "use"
  | Op.version => "version"
  end.

(** Declared parameter lists: [None] for a rest parameter [...args],
    [Some n] for [n] named parameters. *)
Definition declared (o : operation) : option nat :=
  match o with
  | Op.authenticate | Op.export | Op.import | Op.kill | Op.let_ | Op.live
  | Op.query | Op.queryRaw | Op.rpc | Op.signin | Op.signup
  | Op.subscribeLive | Op.unsubscribeLive | Op.unset => None
  | Op.close | Op.connect | Op.info | Op.invalidate | Op.ping | Op.ready
  | Op.version => Some 0
  | Op.delete | Op.select | Op.use => Some 1
  | Op.create | Op.insert | Op.insertRelation | Op.merge | Op.update
  | Op.upsert => Some 2
  | Op.patch | Op.run => Some 3
  | Op.relate => Some 4
  end.
(** The declared parameters as the call binds them: a rest parameter takes
    the whole list, named parameters take their positions, [undefined]
    where the caller gave nothing. *)
Definition bound (o : operation) (args : list value) : list value :=
  match declared o with
  | None => args
  | Some n => map (fun i => arg i args) (seq 0 n)
  end.
End Dispatch.

(** ** A sample platform

    A small driver to run the adapter on: its state is the connection
    status; [connect] settles as the parameter [connecting] says, [close]
    disconnects, [signin] is always refused, [rpc] throws while
    disconnected, and every other method echoes its name and arguments
    while connected and is refused otherwise. *)

Module Demo.
Definition no_socket : value :=
  VError "NoActiveSocket" "No socket is currently connected to a SurrealDB instance".

Definition refused : value :=
  VError "ResponseError" "There was a problem with authentication".

Definition driver (connecting : outcome) : Driver :=
  {| dstate := string;
     dnew := "disconnected";
     dthrows := fun m args st =>
       if String.eqb m "rpc" && negb (String.eqb st "connected")
       then Some no_socket else None;
     dcall := fun m args st =>
       if String.eqb m "connect" then
         match connecting with
         | Resolves _ => ("connected", connecting)
         | _ => ("disconnected", connecting)
         end
       else if String.eqb m "close" then ("disconnected", Resolves VUndefined)
       else if String.eqb m "signin" then (st, Rejects refused)
       else if String.eqb st "connected" then (st, Resolves (VArr (VStr m :: args)))
       else (st, Rejects no_socket);
     dprop := fun p st =>
       if String.eqb p "status" then VStr st
       else if String.eqb p "emitter" then VObj []
       else if String.eqb st "connected" then VObj [("status", VStr st)]
       else VUndefined;
     dunready := fun st => None;
     dready := fun st =>
       if String.eqb st "connected" then Resolves VUndefined else Pending |}.

(** A URL with no base must start with a scheme: an ASCII letter, then
    letters, digits, [+], [-] or [.], then a colon.  The sample parser
    accepts exactly those strings and keeps them as they are. *)
Definition is_alpha (c : Ascii.ascii) : bool :=
  let n := Ascii.nat_of_ascii c in
  ((65 <=? n)%nat && (n <=? 90)%nat) || ((97 <=? n)%nat && (n <=? 122)%nat).

Definition is_scheme_char (c : Ascii.ascii) : bool :=
  let n := Ascii.nat_of_ascii c in
  is_alpha c || ((48 <=? n)%nat && (n <=? 57)%nat)
  || (n =? 43)%nat || (n =? 45)%nat || (n =? 46)%nat.

Fixpoint scheme_rest (s : string) : bool :=
  match s with
  | EmptyString => false
  | String c s' => if (Ascii.nat_of_ascii c =? 58)%nat then true
                   else is_scheme_char c && scheme_rest s'
  end.

Definition has_scheme (s : string) : bool :=
  match s with
  | EmptyString => false
  | String c s' => is_alpha c && scheme_rest s'
  end.

Definition platform (connecting : outcome) : Platform :=
  {| surreal := driver connecting;
     URL_parse := fun s => if has_scheme s then Some s else None |}.

(** The configuration of the README. *)
Definition surrealConfig : SurrealConfig :=
  {| url := "http://localhost:8000/rpc";
     options := [("namespace", VStr "test"); ("database", VStr "test")] |}.

(** A configuration whose endpoint is the empty string. *)
Definition blankConfig : SurrealConfig :=
  {| url := ""; options := [] |}.

Definition up : Platform := platform (Resolves (VBool true)).

Definition down : Platform :=
  platform (Rejects (VError "Error" "connection refused")).
End Demo.

(** ** Vocabulary of the statements *)

Section Vocabulary.
Context {P : Platform}.

(** The world after client [c] has served request [r]. *)
Definition served (c : nat) (r : request) (cl : client P) (w : world P) : world P :=
  set_clients <[c := record r cl]> w.

(** [from(this.db.m(...))] in one step: what the driver throws comes
    out of the method, and otherwise the stream of the new promise is
    returned. *)
Definition wrapped (this : nat) (r : request) (w : world P) : result observable * world P :=
  match services w !! this with
  | Some sv =>
      match clients w !! db sv with
      | Some cl =>
          match refusal r (dst cl) with
          | Some e => (Throw e, w)
          | None =>
              (Ok (from {| pclient := db sv; pindex := length (journal cl) |}),
               served (db sv) r cl w)
          end
      | None => (Throw dangling, w)
      end
  | None => (Throw dangling, w)
  end.

(** The request a call really sends, as the method bodies compute it.
    [None] is the one case where the body throws first: [connect] with an
    endpoint [new URL] refuses. *)
Definition sent (sv : service) (o : operation) (args : list value) : option request :=
  match o with
  | Op.connect =>
      href ← URL_parse P (url (config sv));
      Some (Call "connect" [VURL href; VObj (options (config sv))])
  | Op.ready => Some GetReady
  | Op.insert | Op.insertRelation =>
      Some (if truthy (arg 0 args)
            then Call (driver_method o) [arg 0 args; arg 1 args]
            else Call (driver_method o) [arg 1 args])
  | Op.run =>
      Some (if typeof_is_string (arg 1 args)
            then Call "run" [arg 0 args; arg 1 args; arg 2 args]
            else Call "run" [arg 0 args; arg 2 args])
  | _ => Some (Call (driver_method o) (bound o args))
  end.

(** A client as [new Surreal()] leaves it, and a service as the field
    initialisers leave it. *)
Definition fresh_client : client P := {| dst := dnew (surreal P); journal := [] |}.

Definition fresh_service (c : nat) (cfg : SurrealConfig) : service :=
  {| db := c; config := cfg; connection_cell := None; emitter_cell := None;
     status_cell := None |}.

(** The world once an adapter has been built from configuration [cfg]
    whose endpoint parses to [href]: one more client that has served
    [connect], one more service, one more subscription without
    callbacks. *)
Definition constructed (cfg : SurrealConfig) (href : string) (w : world P) : world P :=
  {| clients :=
       clients w ++
         [record (Call "connect" [VURL href; VObj (options cfg)]) fresh_client];
     services := services w ++ [fresh_service (length (clients w)) cfg];
     injectors := injectors w;
     subscriptions :=
       subscriptions w ++ [({| pclient := length (clients w); pindex := 0 |}, no_handlers)] |}.

(** World [w] still has injector [i] at position [r] and [n] clients, and
    service [s] is still bound to client [c] and configuration [cfg]. *)
Definition settled (r : nat) (i : injector) (n s c : nat) (cfg : SurrealConfig)
    (w : world P) : Prop :=
  injectors w !! r = Some i /\
  length (clients w) = n /\
  exists sv, services w !! s = Some sv /\ config sv = cfg /\ db sv = c.





(** Subscribing the observers [obs] to one stream, one after the other. *)
Fixpoint subscribe_each (o : observable) (obs : list observer) : M P unit :=
  match obs with
  | [] => ret ()
  | ob :: obs' => subscribe o ob ;;; subscribe_each o obs'
  end.

(** What application code can do with the container and an adapter. *)
Inductive action : Type :=
  | Inject (j : nat)
  | Invoke (this : nat) (o : operation) (args : list value)
  | Subscribe (o : observable) (ob : observer)
  | Read (this : nat) (a : SurrealService.accessor)
  | Create (parent : option nat).

(** The world after an action; a thrown exception is caught by the
    application and the run goes on. *)
Definition step (w : world P) (a : action) : world P :=
  match a with
  | Inject j => (inject_service j w).2
  | Invoke this o args => (invoke this o args w).2
  | Subscribe o ob => (subscribe o ob w).2
  | Read this a => (SurrealService.computed this a w).2
  | Create parent => (create_injector parent [] w).2
  end.

Definition exec (l : list action) (w : world P) : world P := fold_left step l w.

(** The actions that stay inside the scope owned by injector [r]: an
    injection must resolve to [r].  [Create] adds an injector that imports
    nothing, as a lazily loaded part of the application does. *)
Definition within (w : world P) (r : nat) (a : action) : Prop :=
  match a with
  | Inject j => owner w j = Some r
  | _ => True
  end.

Fixpoint stays_within (r : nat) (l : list action) (w : world P) : Prop :=
  match l with
  | [] => True
  | a :: l' => within w r a /\ stays_within r l' (step w a)
  end.

(** Every injector points at an older one. *)
Definition older_parents (injs : list injector) : Prop :=
  forall j i p, injs !! j = Some i -> parent i = Some p -> p < j.

(** [encloses injs a j]: injector [a] is [j] or one of its ancestors. *)
Inductive encloses (injs : list injector) : nat -> nat -> Prop :=
  | encloses_self j i : injs !! j = Some i -> encloses injs j j
  | encloses_up a j i p :
      injs !! j = Some i -> parent i = Some p -> encloses injs a p ->
      encloses injs a j.

(** A [SurrealModule] is already registered in the scope an injector
    below [parent] would be nested in. *)
Definition registered_above (w : world P) (parent : option nat) : Prop :=
  exists p a i, parent = Some p /\ encloses (injectors w) a p /\
                injectors w !! a = Some i /\ module_instance i = true.
End Vocabulary.

Global Arguments sent : clear implicits.

(** ** Sample runs *)

Module Scenario.
(** Registration in the root injector, then the first retrieval of the
    adapter. *)
Definition register (P : Platform) (cfg : SurrealConfig) : M P nat :=
  create_injector None [SurrealModule.forRoot cfg].

Definition registered (P : Platform) (cfg : SurrealConfig) : world P :=
  (register P cfg empty_world).2.

Definition booted (P : Platform) (cfg : SurrealConfig) : world P :=
  (inject_service 0 (registered P cfg)).2.

Definition record_a : value := VObj [("name", VStr "a")].

(** The README application, up and running. *)
Definition app : world Demo.up := booted Demo.up Demo.surrealConfig.

(** The adapter of [app] and its client, as construction left them. *)
Definition app_service : service := fresh_service 0 Demo.surrealConfig.

Definition app_client : client Demo.up :=
  record (Call "connect" [VURL "http://localhost:8000/rpc";
                          VObj (options Demo.surrealConfig)]) fresh_client.

(** [ping()] called on the adapter of [app], and the returned stream
    then subscribed twice. *)
Definition pinged : world Demo.up := (invoke 0 Op.ping [] app).2.

Definition ping_stream : observable := from {| pclient := 0; pindex := 1 |}.

Definition subscribed_twice : world Demo.up :=
  (subscribe_each ping_stream [full_observer; full_observer] pinged).2.

(** [status()] read, then [close()] called, then [status()] read
    again. *)
Definition status_read : world Demo.up := (SurrealService.status 0 app).2.

Definition closed : world Demo.up := (invoke 0 Op.close [] status_read).2.

(** [select("example")] *)
Definition selected : world Demo.up := (invoke 0 Op.select [VStr "example"] app).2.

(** [signin(...)] with credentials the server refuses. *)
Definition bad_credentials : list value :=
  [VObj [("scope", VStr "user"); ("email", VStr "bad@x.com"); ("password", VStr "wrong")]].

Definition refused_signin : world Demo.up := (invoke 0 Op.signin bad_credentials app).2.

(** [create("example", {name: "a"})] *)
Definition created_a : world Demo.up :=
  (invoke 0 Op.create [VStr "example"; record_a] app).2.
End Scenario.

(** ** The first revision

    The second part of [surreal.service.ts] keeps the first revision of the
    service, written against [surrealdb.js]; the module that went with it,
    kept at the end of [surreal.config.ts], is the one without a
    constructor.  Its [connection], [emitter] and
    [status] accessors are the [computed] cells of the current revision;
    its [ready] accessor, a [computed] over a promise, has no cell in the
    service record and is left out. *)

Module FirstService.
Section Service.
Context {P : Platform}.

(** The promise of an [async] function whose body awaits one driver
    promise: it is rejected at once when the body throws before the
    [await], and otherwise follows the awaited promise and resolves to
    [undefined]. *)
Inductive async_promise : Type :=
  | RejectedEarly (e : value)
  | Awaits (p : promise).

Definition async_settlement (w : world P) (a : async_promise) : outcome :=
  match a with
  | RejectedEarly e => Rejects e
  | Awaits p =>
      match settlement w p with
      | Some (Resolves _) => Resolves VUndefined
      | Some (Rejects e) => Rejects e
      | Some Pending | None => Pending
      end
  end.

Definition connection (this : nat) : M P value :=
  SurrealService.computed this SurrealService.Connection.

Definition emitter (this : nat) : M P value :=
  SurrealService.computed this SurrealService.Emitter.

Definition status (this : nat) : M P value :=
  SurrealService.computed this SurrealService.Status.

Definition authenticate (this : nat) (args : list value) : M P observable :=
  let* p := db_call this "authenticate" args in ret (from p).

Definition close (this : nat) : M P observable :=
  let* p := db_call this "close" [] in ret (from p).

Definition create (this : nat) (args : list value) : M P observable :=
  let* p := db_call this "create" args in ret (from p).

Definition delete (this : nat) (args : list value) : M P observable :=
  let* p := db_call this "delete" args in ret (from p).

Definition info (this : nat) (args : list value) : M P observable :=
  let* p := db_call this "info" args in ret (from p).

Definition insert (this : nat) (args : list value) : M P observable :=
  let* p := db_call this "insert" args in ret (from p).

Definition invalidate (this : nat) : M P observable :=
  let* p := db_call this "invalidate" [] in ret (from p).

Definition kill (this : nat) (args : list value) : M P observable :=
  let* p := db_call this "kill" args in ret (from p).

Definition let_ (this : nat) (args : list value) : M P observable :=
  let* p := db_call this "let" args in ret (from p).

Definition live (this : nat) (args : list value) : M P observable :=
  let* p := db_call this "live" args in ret (from p).

Definition merge (this : nat) (args : list value) : M P observable :=
  let* p := db_call this "merge" args in ret (from p).

Definition patch (this : nat) (args : list value) : M P observable :=
  let* p := db_call this "patch" args in ret (from p).

Definition ping (this : nat) : M P observable :=
  let* p := db_call this "ping" [] in ret (from p).

Definition query (this : nat) (args : list value) : M P observable :=
  let* p := db_call this "query" args in ret (from p).

Definition queryRaw (this : nat) (args : list value) : M P observable :=
  let* p := db_call this "query_raw" args in ret (from p).

Definition relate (this : nat) (args : list value) : M P observable :=
  let* p := db_call this "relate" args in ret (from p).

Definition run (this : nat) (args : list value) : M P observable :=
  let* p := db_call this "run" args in ret (from p).

Definition select (this : nat) (args : list value) : M P observable :=
  let* p := db_call this "select" args in ret (from p).

Definition signin (this : nat) (args : list value) : M P observable :=
  let* p := db_call this "signin" args in ret (from p).

Definition signup (this : nat) (args : list value) : M P observable :=
  let* p := db_call this "signup" args in ret (from p).

Definition subscribeLive (this : nat) (args : list value) : M P observable :=
  let* p := db_call this "subscribeLive" args in ret (from p).

Definition unsubscribeLive (this : nat) (args : list value) : M P observable :=
  let* p := db_call this "unSubscribeLive" args in ret (from p).

Definition unset (this : nat) (args : list value) : M P observable :=
  let* p := db_call this "unset" args in ret (from p).

Definition update (this : nat) (args : list value) : M P observable :=
  let* p := db_call this "update" args in ret (from p).

Definition use (this : nat) (args : list value) : M P observable :=
  let* p := db_call this "use" args in ret (from p).

Definition version (this : nat) : M P observable :=
  let* p := db_call this "version" [] in ret (from p).

(** [private async connect({ url, ...options })]: the body runs up to its
    [await] when the function is called; whatever it throws on the way
    rejects the returned promise instead of reaching the caller. *)
Definition connect (this : nat) (config : SurrealConfig) : M P async_promise :=
  fun w =>
    let '(url, options) := (url config, options config) in
    match (let* u := new_URL url in
           db_call this "connect" [u; VObj options]) w with
    | (Ok p, w') => (Ok (Awaits p), w')
    | (Throw e, w') => (Ok (RejectedEarly e), w')
    end.

(** [db = new Surreal()], then [constructor(private config) {
    this.connect(config); }]: the promise of [connect] is dropped. *)
Definition new (config : SurrealConfig) : M P nat :=
  let* c := new_Surreal in
  let* this := (fun w =>
    (Ok (length (services w)),
     set_services (fun ss => ss ++ [{| db := c; config := config;
                                      connection_cell := None;
                                      emitter_cell := None;
                                      status_cell := None |}]) w)) in
  let* _ := connect this config in
  ret this.
End Service.
End FirstService.

Module FirstOp.
Inductive operation : Type :=
  | authenticate | close | create | delete | info | insert | invalidate | kill
  | let_ | live | merge | patch | ping | query | queryRaw | relate | run
  | select | signin | signup | subscribeLive | unsubscribeLive | unset
  | update | use | version.
End FirstOp.

Section FirstDispatch.
Context {P : Platform}.

(** [service.<op>(...args)] on a service of the first revision. *)
Definition first_invoke (this : nat) (o : FirstOp.operation) (args : list value)
    : M P observable :=
  match o with
  | FirstOp.authenticate => FirstService.authenticate this args
  | FirstOp.close => FirstService.close this
  | FirstOp.create => FirstService.create this args
  | FirstOp.delete => FirstService.delete this args
  | FirstOp.info => FirstService.info this args
  | FirstOp.insert => FirstService.insert this args
  | FirstOp.invalidate => FirstService.invalidate this
  | FirstOp.kill => FirstService.kill this args
  | FirstOp.let_ => FirstService.let_ this args
  | FirstOp.live => FirstService.live this args
  | FirstOp.merge => FirstService.merge this args
  | FirstOp.patch => FirstService.patch this args
  | FirstOp.ping => FirstService.ping this
  | FirstOp.query => FirstService.query this args
  | FirstOp.queryRaw => FirstService.queryRaw this args
  | FirstOp.relate => FirstService.relate this args
  | FirstOp.run => FirstService.run this args
  | FirstOp.select => FirstService.select this args
  | FirstOp.signin => FirstService.signin this args
  | FirstOp.signup => FirstService.signup this args
  | FirstOp.subscribeLive => FirstService.subscribeLive this args
  | FirstOp.unsubscribeLive => FirstService.unsubscribeLive this args
  | FirstOp.unset => FirstService.unset this args
  | FirstOp.update => FirstService.update this args
  | FirstOp.use => FirstService.use this args
  | FirstOp.version => FirstService.version this
  end.

(** The driver member behind each method of the first revision. *)
Definition first_driver_method (o : FirstOp.operation) : string :=
  match o with
  | FirstOp.authenticate => "authenticate" | FirstOp.close => "close"
  | FirstOp.create => "create" | FirstOp.delete => "delete"
  | FirstOp.info => "info" | FirstOp.insert => "insert"
  | FirstOp.invalidate => "invalidate" | FirstOp.kill => "kill"
  | FirstOp.let_ => "let" | FirstOp.live => "live" | FirstOp.merge => "merge"
  | FirstOp.patch => "patch" | FirstOp.ping => "ping" | FirstOp.query => "query"
  | FirstOp.queryRaw => "query_raw" | FirstOp.relate => "relate"
  | FirstOp.run => "run" | FirstOp.select => "select"
  | FirstOp.signin => "signin" | FirstOp.signup => "signup"
  | FirstOp.subscribeLive => "subscribeLive"
  | FirstOp.unsubscribeLive => "unSubscribeLive" | FirstOp.unset => "unset"
  | FirstOp.update => "update" | FirstOp.use => "use"
  | FirstOp.version => "version"
  end.

(** The methods declared without parameters. *)
Definition first_takes_none (o : FirstOp.operation) : bool :=
  match o with
  | FirstOp.close | FirstOp.invalidate | FirstOp.ping | FirstOp.version => true
  | _ => false
  end.
End FirstDispatch.

(** The module of the first revision: [forRoot] as today, no constructor,
    and a factory that is handed the resolved configuration. *)
Module FirstModule.
Section Module.
Context {P : Platform}.

(** [SurrealFactory = (config) => new SurrealService(config)] *)
Definition SurrealFactory (config : SurrealConfig) : M P nat := FirstService.new config.

(** [static forRoot(config)] *)
Definition forRoot (config : SurrealConfig) : SurrealModule.ModuleWithProviders :=
  {| SurrealModule.providers :=
       [ SurrealModule.UseValue SURREAL_CONFIG_TOKEN config;
         SurrealModule.UseFactory [SURREAL_CONFIG_TOKEN] ] |}.

(** The class cannot be built without the provider: its constructor
    parameter has no injection token. *)
Definition invalid_factory : value :=
  VError "RuntimeError"
    "NG0202: This constructor is not compatible with Angular Dependency Injection".

Definition build (o : nat) (i : injector) : M P nat :=
  if service_provider i
  then let* config := inject_config o in SurrealFactory config
  else throw invalid_factory.

(** Creating an injector: the module class has no constructor, so there
    is nothing that could refuse. *)
Definition create_injector (parent : option nat)
    (imports : list SurrealModule.ModuleWithProviders) : M P nat :=
  (match parent with
   | Some p => let* _ := (fun w => deref (injectors w !! p) w) in ret ()
   | None => ret ()
   end) ;;;
  fun w =>
    (Ok (length (injectors w)),
     set_injectors (fun js => js ++ [created parent imports]) w).

Definition inject_service (j : nat) : M P nat :=
  let* o := (fun w => deref (owner w j) w) in
  let* i := (fun w => deref (injectors w !! o) w) in
  match service_instance i with
  | Built s => ret s
  | Circular => throw circular_dependency
  | NotYet =>
      modify (set_injectors (fun js => <[o := set_instance Circular i]> js)) ;;;
      let* s := build o i in
      modify (set_injectors (fun js => <[o := set_instance (Built s) i]> js)) ;;;
      ret s
  end.
End Module.
End FirstModule.

(** ** Whole runs of an application *)

Section Lifetimes.
Context {P : Platform}.

(** What an application does over its life: it creates injectors, with or
    without registrations, and acts on what it has. *)
Inductive command : Type :=
  | Register (parent : option nat) (imports : list SurrealModule.ModuleWithProviders)
  | Act (a : action).

Definition obey (w : world P) (c : command) : world P :=
  match c with
  | Register parent imports => (create_injector parent imports w).2
  | Act a => step w a
  end.

Definition run_commands (l : list command) (w : world P) : world P := fold_left obey l w.

Definition reachable (w : world P) : Prop :=
  exists l, w = run_commands l empty_world.

(** The client and the configuration each service object is bound to. *)
Definition bindings (w : world P) : list (nat * SurrealConfig) :=
  (fun sv => (db sv, config sv)) <$> services w.

(** Every service is bound to an existing client, no two services to the
    same one, and an adapter an injector hands out exists and has an
    endpoint that parses. *)
Definition sound (w : world P) : Prop :=
  (forall s b, bindings w !! s = Some b -> b.1 < length (clients w)) /\
  NoDup (fst <$> bindings w) /\
  (forall o i s, injectors w !! o = Some i -> service_instance i = Built s ->
     exists b, bindings w !! s = Some b /\ is_Some (URL_parse P (url b.2))).
End Lifetimes.

(** ** More sample runs *)

Module Tour.
(** A second configuration, for another server. *)
Definition otherConfig : SurrealConfig :=
  {| url := "ws://db.example.org/rpc"; options := [("namespace", VStr "prod")] |}.

(** The README application from the empty world, as a run. *)
Definition boot : list command :=
  [ Register None [SurrealModule.forRoot Demo.surrealConfig]; Act (Inject 0) ].

(** An application whose root registers nothing and whose two lazily
    loaded parts each register the module and retrieve the adapter. *)
Definition two_scopes : list command :=
  [ Register None [];
    Register (Some 0) [SurrealModule.forRoot Demo.surrealConfig];
    Register (Some 0) [SurrealModule.forRoot otherConfig];
    Act (Inject 1); Act (Inject 2) ].

Definition twins : world Demo.up := run_commands two_scopes empty_world.

(** What the README application might go on to do. *)
Definition afternoon : list command :=
  [ Act (Invoke 0 Op.close []); Act (Read 0 SurrealService.Status);
    Register (Some 0) []; Act (Inject 1);
    Act (Invoke 0 Op.select [VStr "example"]) ].

(** An application that never registered the module. *)
Definition unregistered : world Demo.up := (create_injector None [] empty_world).2.

(** The first revision: a root that registers the module and retrieves the
    adapter. *)
Definition first_app : world Demo.up :=
  (FirstModule.inject_service 0
     (FirstModule.create_injector None [FirstModule.forRoot Demo.surrealConfig]
        empty_world).2).2.

(** [run("fn::greet", ["a"])] *)
Definition greet : list value := [VStr "fn::greet"; VArr [VStr "a"]].
End Tour.

(** * Properties *)

(** ** The computation monad *)

Section MonadFacts.
Context {P : Platform}.

Lemma bind_Ok_inv {A B} (m : M P A) (k : A -> M P B) w b w' :
  bind m k w = (Ok b, w') ->
  exists a w1, m w = (Ok a, w1) /\ k a w1 = (Ok b, w').
Proof.
  unfold bind. destruct (m w) as [[a|e] w1]; [eauto | discriminate].
Qed.

Lemma bind_Ok {A B} (m : M P A) (k : A -> M P B) w a w1 :
  m w = (Ok a, w1) -> bind m k w = k a w1.
Proof. unfold bind. by intros ->. Qed.

Lemma bind_Throw {A B} (m : M P A) (k : A -> M P B) w e w1 :
  m w = (Throw e, w1) -> bind m k w = (Throw e, w1).
Proof. unfold bind. by intros ->. Qed.
End MonadFacts.

(** ** One delegation *)

Section Delegation.
Context {P : Platform}.
Implicit Types (w : world P) (sv : service) (cl : client P).

Lemma interact_run c r w :
  interact c r w =
    match clients w !! c with
    | Some cl =>
        match refusal r (dst cl) with
        | Some e => (Throw e, w)
        | None => (Ok {| pclient := c; pindex := length (journal cl) |}, served c r cl w)
        end
    | None => (Throw dangling, w)
    end.
Proof.
  unfold interact, bind. destruct (clients w !! c) as [cl|]; simpl; [|reflexivity].
  destruct (refusal r (dst cl)); reflexivity.
Qed.

Lemma wrap_call this m args w :
  (let* p := db_call this m args in ret (from p)) w = wrapped this (Call m args) w.
Proof.
  unfold wrapped, db_call, self, bind.
  destruct (services w !! this) as [sv|]; simpl; [|done].
  rewrite interact_run. destruct (clients w !! db sv) as [cl|]; [|done].
  simpl refusal. by destruct (dthrows _ _ _ (dst cl)).
Qed.

Lemma wrap_ready this w :
  (let* p := db_ready this in ret (from p)) w = wrapped this GetReady w.
Proof.
  unfold wrapped, db_ready, self, bind.
  destruct (services w !! this) as [sv|]; simpl; [|done].
  rewrite interact_run. destruct (clients w !! db sv) as [cl|]; [|done].
  simpl refusal. by destruct (dunready _ (dst cl)).
Qed.

Lemma wrapped_Ok this r w o w' :
  wrapped this r w = (Ok o, w') ->
  exists sv cl,
    services w !! this = Some sv /\ clients w !! db sv = Some cl /\
    o = from {| pclient := db sv; pindex := length (journal cl) |} /\
    w' = served (db sv) r cl w.
Proof.
  unfold wrapped. destruct (services w !! this) as [sv|]; [|discriminate].
  destruct (clients w !! db sv) as [cl|] eqn:Hc; [|discriminate].
  destruct (refusal r (dst cl)); [discriminate|].
  intros [= <- <-]. eauto 10.
Qed.

Lemma wrapped_Throw this r w e w' :
  wrapped this r w = (Throw e, w') -> w' = w.
Proof.
  unfold wrapped. destruct (services w !! this) as [sv|]; [|by intros [= _ <-]].
  destruct (clients w !! db sv) as [cl|]; [|by intros [= _ <-]].
  destruct (refusal r (dst cl)); [by intros [= _ <-] | discriminate].
Qed.

(** On an existing adapter a request goes to the driver: what the driver
    throws comes out, and otherwise the stream of the request is
    returned. *)
Lemma wrapped_live this r w sv cl :
  services w !! this = Some sv -> clients w !! db sv = Some cl ->
  wrapped this r w =
    match refusal r (dst cl) with
    | Some e => (Throw e, w)
    | None =>
        (Ok (from {| pclient := db sv; pindex := length (journal cl) |}),
         served (db sv) r cl w)
    end.
Proof. unfold wrapped. by intros -> ->. Qed.

Lemma connect_run this w :
  SurrealService.connect this w =
    match services w !! this with
    | Some sv =>
        match URL_parse P (url (config sv)) with
        | Some href =>
            wrapped this (Call "connect" [VURL href; VObj (options (config sv))]) w
        | None => (Throw (VError "TypeError" "Invalid URL"), w)
        end
    | None => (Throw dangling, w)
    end.
Proof.
  unfold SurrealService.connect, self. unfold bind at 1.
  destruct (services w !! this) as [sv|] eqn:Hs; simpl; [|done].
  unfold new_URL. unfold bind at 1.
  destruct (URL_parse P (url (config sv))); simpl; [|done].
  apply wrap_call.
Qed.

(** Every method is one [wrapped] request, computed by [sent]. *)
Lemma invoke_run this o args w :
  invoke this o args w =
    match services w !! this with
    | Some sv =>
        match sent P sv o args with
        | Some r => wrapped this r w
        | None => (Throw (VError "TypeError" "Invalid URL"), w)
        end
    | None => (Throw dangling, w)
    end.
Proof.
  destruct o; simpl;
    try (rewrite connect_run; destruct (services w !! this) as [sv|]; [|done];
         simpl; by destruct (URL_parse P (url (config sv))));
    unfold SurrealService.authenticate, SurrealService.close, SurrealService.create,
      SurrealService.delete, SurrealService.export, SurrealService.import,
      SurrealService.info, SurrealService.insert, SurrealService.insertRelation,
      SurrealService.invalidate, SurrealService.kill, SurrealService.let_,
      SurrealService.live, SurrealService.merge, SurrealService.patch,
      SurrealService.ping, SurrealService.query, SurrealService.queryRaw,
      SurrealService.ready, SurrealService.relate, SurrealService.rpc,
      SurrealService.run, SurrealService.select, SurrealService.signin,
      SurrealService.signup, SurrealService.subscribeLive,
      SurrealService.unsubscribeLive, SurrealService.unset, SurrealService.update,
      SurrealService.upsert, SurrealService.use, SurrealService.version;
    try destruct (truthy (arg 0 args)); try destruct (typeof_is_string (arg 1 args));
    simpl;
    rewrite ?wrap_call, ?wrap_ready;
    (destruct (services w !! this) as [sv|] eqn:Hs;
     [reflexivity | unfold wrapped; by rewrite Hs]).
Qed.
End Delegation.

(** ** What one delegation leaves behind *)

Section Served.
Context {P : Platform}.
Implicit Types (w : world P) (sv : service) (cl : client P).

Lemma served_clients c r cl w :
  clients w !! c = Some cl ->
  clients (served c r cl w) !! c = Some (record r cl).
Proof.
  intros H. simpl. apply list_lookup_insert_eq. by eapply lookup_lt_Some.
Qed.

Lemma served_clients_ne c c' r cl w :
  c <> c' -> clients (served c r cl w) !! c' = clients w !! c'.
Proof. intros H. simpl. by apply list_lookup_insert_ne. Qed.

Lemma served_length c r cl w :
  length (clients (served c r cl w)) = length (clients w).
Proof. simpl. apply length_insert. Qed.

Lemma served_journal c r cl w :
  clients w !! c = Some cl ->
  journal_of (served c r cl w) c =
    journal_of w c ++ [{| req := r; settles := (perform r (dst cl)).2 |}].
Proof.
  intros H. unfold journal_of. rewrite (served_clients _ _ _ _ H), H. reflexivity.
Qed.

Lemma served_journal_ne c c' r cl w :
  c <> c' -> journal_of (served c r cl w) c' = journal_of w c'.
Proof. intros H. unfold journal_of. by rewrite served_clients_ne. Qed.


Lemma served_settlement c r cl w :
  clients w !! c = Some cl ->
  settlement (served c r cl w) {| pclient := c; pindex := length (journal cl) |} =
    Some (perform r (dst cl)).2.
Proof.
  intros H. unfold settlement. simpl pclient. simpl pindex.
  rewrite (served_clients _ _ _ _ H). simpl.
  rewrite lookup_app_r by lia. by rewrite Nat.sub_diag.
Qed.

Lemma served_request c r cl w :
  clients w !! c = Some cl ->
  request_of (served c r cl w) {| pclient := c; pindex := length (journal cl) |} = Some r.
Proof.
  intros H. unfold request_of. simpl pclient. simpl pindex.
  rewrite (served_clients _ _ _ _ H). simpl.
  rewrite lookup_app_r by lia. by rewrite Nat.sub_diag.
Qed.


(** A method that returns a stream has sent exactly one request to the
    client of its service. *)
Lemma invoke_Ok this o args w s w' :
  invoke this o args w = (Ok s, w') ->
  exists sv cl r,
    services w !! this = Some sv /\ clients w !! db sv = Some cl /\
    sent P sv o args = Some r /\
    s = from {| pclient := db sv; pindex := length (journal cl) |} /\
    w' = served (db sv) r cl w.
Proof.
  rewrite invoke_run. destruct (services w !! this) as [sv|] eqn:Hs; [|discriminate].
  destruct (sent P sv o args) as [r|] eqn:Hr; [|discriminate].
  intros H. apply wrapped_Ok in H as (sv' & cl & Hs' & Hc & -> & ->).
  rewrite Hs in Hs'. injection Hs' as <-. eauto 10.
Qed.

Lemma invoke_Throw this o args w e w' :
  invoke this o args w = (Throw e, w') -> w' = w.
Proof.
  rewrite invoke_run. destruct (services w !! this) as [sv|]; [|by intros [= _ <-]].
  destruct (sent P sv o args) as [r|]; [|by intros [= _ <-]].
  intros H. by apply wrapped_Throw in H.
Qed.

Lemma subscribe_run (s : observable) ob w :
  subscribe s ob w = (Ok (), set_subscriptions (fun ss => ss ++ [(source s, ob)]) w).
Proof. reflexivity. Qed.

Lemma subscribe_each_run (s : observable) obs w :
  subscribe_each s obs w =
    (Ok (), set_subscriptions (fun ss => ss ++ map (fun ob => (source s, ob)) obs) w).
Proof.
  revert w. induction obs as [|ob obs IH]; intros w; simpl.
  - unfold ret, set_subscriptions. rewrite app_nil_r. by destruct w.
  - unfold bind. rewrite subscribe_run, IH. unfold set_subscriptions; simpl.
    by rewrite <- app_assoc.
Qed.
End Served.

(** ** The stream contract *)

Section Streams.
Context {P : Platform}.
Implicit Types (w : world P) (sv : service) (cl : client P).

Lemma served_requests c r cl w :
  clients w !! c = Some cl ->
  requests_of (served c r cl w) c = requests_of w c ++ [r].
Proof.
  intros H. unfold requests_of. rewrite (served_journal _ _ _ _ H).
  by rewrite map_app.
Qed.

Lemma served_emissions c r cl w :
  clients w !! c = Some cl ->
  emissions (served c r cl w) (from {| pclient := c; pindex := length (journal cl) |}) =
    notifications (perform r (dst cl)).2.
Proof.
  intros H. unfold emissions. simpl source. by rewrite served_settlement.
Qed.



(** C6, as the code has it.  The driver request is sent by the method
    call itself: it is in the journal when the stream is returned.
    Subscribing sends nothing, however many subscribers there are, and
    each of them is served from that one request. *)
Theorem request_sent_at_call_and_shared this o args w s w' :
  invoke this o args w = (Ok s, w') ->
  (exists r, requests_of w' (pclient (source s)) =
               requests_of w (pclient (source s)) ++ [r] /\
             request_of w' (source s) = Some r) /\
  forall obs,
    exists w'', subscribe_each s obs w' = (Ok (), w'') /\
                clients w'' = clients w' /\
                emissions w'' s = emissions w' s.
Proof.
  intros H. apply invoke_Ok in H as (sv & cl & r & Hs & Hc & Hr & -> & ->).
  split.
  - exists r. simpl source. simpl pclient. split.
    + by apply served_requests.
    + by apply served_request.
  - intros obs. rewrite subscribe_each_run. eauto.
Qed.




End Streams.

(** ** Construction of the adapter *)

Section Construction.
Context {P : Platform}.
Implicit Types (w : world P) (sv : service) (cl : client P).

Lemma lookup_snoc {A} (l : list A) (x : A) : (l ++ [x]) !! length l = Some x.
Proof. by rewrite lookup_app_r, Nat.sub_diag by lia. Qed.

Lemma insert_snoc {A} (l : list A) (x y : A) : <[length l := y]> (l ++ [x]) = l ++ [y].
Proof. by rewrite insert_app_r_alt, Nat.sub_diag by lia. Qed.

Lemma new_run inj w :
  SurrealService.new inj w =
    let w1 := set_clients (fun cs => cs ++ [fresh_client]) w in
    match resolve w config_provider inj with
    | None =>
        (Throw (VError "NullInjectorError"
                  ("No provider for InjectionToken " ++ SURREAL_CONFIG_TOKEN)%string), w1)
    | Some cfg =>
        let w2 := set_services (fun ss => ss ++ [fresh_service (length (clients w)) cfg]) w1 in
        match URL_parse P (url cfg) with
        | None => (Throw (VError "TypeError" "Invalid URL"), w2)
        | Some href =>
            match refusal (Call "connect" [VURL href; VObj (options cfg)])
                    (dnew (surreal P)) with
            | Some e => (Throw e, w2)
            | None => (Ok (length (services w)), constructed cfg href w)
            end
        end
    end.
Proof.
  unfold SurrealService.new, new_Surreal. unfold bind at 1. cbv zeta.
  unfold inject_config. unfold bind at 1. unfold resolve at 1. simpl injectors.
  fold (resolve w config_provider inj).
  destruct (resolve w config_provider inj) as [cfg|]; [|reflexivity].
  unfold bind at 1. simpl services. unfold bind at 1.
  rewrite connect_run. simpl services. rewrite lookup_snoc. simpl config.
  destruct (URL_parse P (url cfg)) as [href|]; [|reflexivity].
  unfold wrapped. simpl services. rewrite lookup_snoc. simpl db. simpl clients.
  rewrite lookup_snoc. simpl dst.
  destruct (refusal _ (dnew (surreal P))); [reflexivity|].
  unfold bind. rewrite subscribe_run.
  unfold ret, constructed, served, set_subscriptions, set_clients, set_services; simpl.
  rewrite insert_snoc. reflexivity.
Qed.
End Construction.

(** ** The injector tree *)

Section Tree.
Context {P : Platform}.
Implicit Types (w : world P) (injs : list injector).

Lemma encloses_exists injs a j : encloses injs a j -> is_Some (injs !! j).
Proof. destruct 1; eauto. Qed.

Lemma lookup_up_sound {A} injs (f : injector -> option A) fuel j x :
  lookup_up injs f fuel j = Some x ->
  exists a i, encloses injs a j /\ injs !! a = Some i /\ f i = Some x.
Proof.
  revert j. induction fuel as [|fuel IH]; intros j; simpl; [discriminate|].
  destruct (injs !! j) as [i|] eqn:Hj; [|discriminate].
  destruct (f i) as [y|] eqn:Hf.
  - intros [= <-]. exists j, i. eauto using encloses_self.
  - destruct (parent i) as [p|] eqn:Hp; [|discriminate].
    intros H. apply IH in H as (a & i' & He & Ha & Hx).
    exists a, i'. eauto using encloses_up.
Qed.

Lemma lookup_up_complete {A} injs (f : injector -> option A) a j i :
  older_parents injs ->
  encloses injs a j -> injs !! a = Some i -> is_Some (f i) ->
  forall fuel, j < fuel -> is_Some (lookup_up injs f fuel j).
Proof.
  intros Hwf He Ha Hf. induction He as [j i' Hj | a j i' p Hj Hp He IH];
    intros [|fuel] Hlt; try lia; simpl; rewrite Hj.
  - rewrite Ha in Hj. injection Hj as <-. destruct Hf as [x ->]. eauto.
  - destruct (f i'); [eauto|]. rewrite Hp. apply IH; [done|].
    specialize (Hwf j i' p Hj Hp). lia.
Qed.

(** The [@SkipSelf()] lookup finds a module exactly when one is
    registered in an enclosing injector. *)
Lemma parent_module_spec w parent :
  older_parents (injectors w) ->
  parent_module w parent = true <-> registered_above w parent.
Proof.
  intros Hwf. unfold parent_module, registered_above. destruct parent as [p|].
  - rewrite bool_decide_eq_true. split.
    + intros [x Hx]. apply lookup_up_sound in Hx as (a & i & He & Ha & Hx).
      exists p, a, i. repeat split; auto. by destruct (module_instance i).
    + intros (p' & a & i & [= <-] & He & Ha & Hm).
      eapply lookup_up_complete; eauto.
      * rewrite Hm. eauto.
      * apply encloses_exists in He as [? He]. by eapply lookup_lt_Some.
  - split; [discriminate|]. by intros (p & ? & ? & [=] & _).
Qed.

Lemma create_injector_run parent imports w :
  create_injector parent imports w =
    if match parent with
       | Some p => bool_decide (is_Some (injectors w !! p))
       | None => true
       end
    then
      if negb (bool_decide (imports = [])) && parent_module w parent
      then (Throw SurrealModule.already_loaded, w)
      else (Ok (length (injectors w)),
            set_injectors (fun js => js ++ [created parent imports]) w)
    else (Throw dangling, w).
Proof.
  unfold create_injector. unfold bind at 1.
  destruct parent as [p|].
  - unfold bind at 1. destruct (injectors w !! p) as [i|] eqn:Hp; simpl.
    + unfold bind. destruct (bool_decide (imports = [])); simpl; [reflexivity|].
      unfold gets, SurrealModule.new.
      by destruct (bool_decide _).
    + reflexivity.
  - simpl. unfold bind. by destruct (bool_decide (imports = [])).
Qed.

Lemma owner_of_provider w j i :
  injectors w !! j = Some i -> service_provider i = true -> owner w j = Some j.
Proof.
  intros Hj Hp. unfold owner. pose proof (lookup_lt_Some _ _ _ Hj) as Hlt.
  destruct (length (injectors w)) as [|n]; [lia|]. simpl. by rewrite Hj, Hp.
Qed.

Lemma resolve_here {A} w (f : injector -> option A) j i x :
  injectors w !! j = Some i -> f i = Some x -> resolve w f j = Some x.
Proof.
  intros Hj Hf. unfold resolve. pose proof (lookup_lt_Some _ _ _ Hj) as Hlt.
  destruct (length (injectors w)) as [|n]; [lia|]. simpl. by rewrite Hj, Hf.
Qed.

Lemma inject_service_run j w :
  inject_service j w =
    match owner w j with
    | None => (Throw dangling, w)
    | Some o =>
        match injectors w !! o with
        | None => (Throw dangling, w)
        | Some i =>
            match service_instance i with
            | Built s => (Ok s, w)
            | Circular => (Throw circular_dependency, w)
            | NotYet =>
                match build o i
                        (set_injectors (fun js => <[o := set_instance Circular i]> js) w)
                with
                | (Ok s, w') =>
                    (Ok s, set_injectors (fun js => <[o := set_instance (Built s) i]> js) w')
                | (Throw e, w') => (Throw e, w')
                end
            end
        end
    end.
Proof.
  unfold inject_service. unfold bind at 1.
  destruct (owner w j) as [o|]; simpl; [|done].
  unfold bind at 1. destruct (injectors w !! o) as [i|]; simpl; [|done].
  destruct (service_instance i); [|done|done].
  unfold bind at 1. unfold modify at 1. unfold bind at 1.
  by destruct (build o i _) as [[s|e] w'].
Qed.
End Tree.

(** ** Registration *)

Section RegistrationFacts.
Context {P : Platform}.
Implicit Types (w : world P) (sv : service) (cl : client P).

Lemma older_parents_nil : older_parents [].
Proof. intros j i p H. by rewrite lookup_nil in H. Qed.

Lemma older_parents_snoc injs i :
  older_parents injs ->
  (forall p, parent i = Some p -> p < length injs) ->
  older_parents (injs ++ [i]).
Proof.
  intros Hwf Hi j i' p Hj Hp.
  destruct (decide (j < length injs)) as [Hlt|Hge].
  - rewrite lookup_app_l in Hj by done. eauto.
  - rewrite lookup_app_r in Hj by lia.
    destruct (j - length injs) as [|n] eqn:Hn; simpl in Hj; [|by rewrite lookup_nil in Hj].
    injection Hj as <-. specialize (Hi p Hp). lia.
Qed.


(** Creating an injector keeps the tree well formed. *)
Lemma create_injector_older parent imports w r w' :
  older_parents (injectors w) ->
  create_injector parent imports w = (r, w') ->
  older_parents (injectors w').
Proof.
  intros Hwf. rewrite create_injector_run.
  destruct parent as [p|].
  - destruct (bool_decide (is_Some (injectors w !! p))) eqn:Hp; [|by intros [= _ <-]].
    apply bool_decide_eq_true in Hp as [i Hp].
    destruct (_ && _); intros [= _ <-]; [done|]. simpl.
    apply older_parents_snoc; [done|]. simpl. intros ? [= <-].
    by eapply lookup_lt_Some.
  - destruct (_ && _); intros [= _ <-]; [done|]. simpl.
    apply older_parents_snoc; [done|]. simpl. discriminate.
Qed.

(** C3, as the code has it.  A registration throws the
    duplicate-registration error exactly when a [SurrealModule] is
    already registered in an enclosing injector, and then the world is
    left as it was.  Otherwise it goes through, also when the new
    injector imports the module several times, and builds no client and
    no adapter either. *)
Theorem nested_registration_throws parent imports w :
  older_parents (injectors w) ->
  imports <> [] ->
  (registered_above w parent ->
     create_injector parent imports w = (Throw SurrealModule.already_loaded, w)) /\
  (~ registered_above w parent ->
     match parent with Some p => is_Some (injectors w !! p) | None => True end ->
     exists j w', create_injector parent imports w = (Ok j, w') /\
                  clients w' = clients w /\ services w' = services w).
Proof.
  intros Hwf Hne. rewrite create_injector_run.
  rewrite (bool_decide_eq_false_2 (imports = [])) by done. simpl negb.
  split.
  - intros Hreg. pose proof Hreg as (p & a & i & -> & He & _).
    rewrite (bool_decide_eq_true_2 (is_Some _)) by (by eapply encloses_exists).
    apply parent_module_spec in Hreg; [|done]. by rewrite Hreg.
  - intros Hreg Hp.
    assert (parent_module w parent = false) as ->.
    { destruct (parent_module w parent) eqn:Hm; [|done].
      apply parent_module_spec in Hm; done. }
    simpl. destruct parent as [p|]; [rewrite bool_decide_eq_true_2 by done|]; eauto.
Qed.

Lemma created_forRoot parent cfg :
  created parent [SurrealModule.forRoot cfg] =
    {| parent := parent; module_instance := true; config_provider := Some cfg;
       service_provider := true; service_instance := NotYet |}.
Proof. reflexivity. Qed.

Lemma registration_Ok parent cfg w0 r w1 :
  create_injector parent [SurrealModule.forRoot cfg] w0 = (Ok r, w1) ->
  r = length (injectors w0) /\
  w1 = set_injectors (fun js => js ++ [created parent [SurrealModule.forRoot cfg]]) w0.
Proof.
  rewrite create_injector_run.
  destruct (match parent with Some _ => _ | None => _ end); [|discriminate].
  destruct (_ && _); [discriminate|]. by intros [= <- <-].
Qed.

Lemma SurrealFactory_Ok inj w s w' :
  SurrealFactory inj w = (Ok s, w') ->
  exists cfg href,
    resolve w config_provider inj = Some cfg /\ URL_parse P (url cfg) = Some href /\
    s = length (services w) /\ w' = constructed cfg href w.
Proof.
  unfold SurrealFactory. rewrite new_run. cbv zeta.
  destruct (resolve w config_provider inj) as [cfg|]; [|discriminate].
  destruct (URL_parse P (url cfg)) as [href|] eqn:Hurl; [|discriminate].
  destruct (refusal _ (dnew (surreal P))); [discriminate|].
  intros [= <- <-]. by exists cfg, href.
Qed.

Lemma build_Ok o i w s w' :
  build o i w = (Ok s, w') -> SurrealFactory o w = (Ok s, w').
Proof.
  unfold build. destruct (service_provider i); [|done].
  unfold bind, inject_config. by destruct (resolve w config_provider o).
Qed.

Lemma build_world o i w r w' :
  build o i w = (r, w') -> w' = w \/ exists r', SurrealFactory o w = (r', w').
Proof.
  unfold build. destruct (service_provider i); [|eauto].
  unfold bind, inject_config. destruct (resolve w config_provider o); [eauto|].
  intros [= _ <-]. by left.
Qed.

(** The first retrieval after a registration. *)
Lemma first_injection parent cfg w0 r w1 s w2 :
  create_injector parent [SurrealModule.forRoot cfg] w0 = (Ok r, w1) ->
  inject_service r w1 = (Ok s, w2) ->
  exists href,
    URL_parse P (url cfg) = Some href /\ s = length (services w0) /\
    w2 = {| clients :=
              clients w0 ++
                [record (Call "connect" [VURL href; VObj (options cfg)]) fresh_client];
            services := services w0 ++ [fresh_service (length (clients w0)) cfg];
            injectors :=
              injectors w0 ++
                [set_instance (Built s) (created parent [SurrealModule.forRoot cfg])];
            subscriptions :=
              subscriptions w0 ++
                [({| pclient := length (clients w0); pindex := 0 |}, no_handlers)] |}.
Proof.
  intros Hreg Hinj. apply registration_Ok in Hreg as [-> ->].
  rewrite inject_service_run in Hinj.
  set (i := created parent [SurrealModule.forRoot cfg]) in *.
  set (w1 := set_injectors _ w0) in *.
  assert (injectors w1 !! length (injectors w0) = Some i) as Hi by apply lookup_snoc.
  rewrite (owner_of_provider w1 _ i Hi eq_refl), Hi in Hinj. simpl in Hinj.
  match type of Hinj with
  | context [build _ _ ?w] => set (wc := w) in *
  end.
  destruct (build (length (injectors w0)) i wc) as [[s'|e] w'] eqn:Hf;
    [|discriminate].
  injection Hinj as <- <-.
  apply build_Ok, SurrealFactory_Ok in Hf as (cfg' & href & Hcfg & Hurl & -> & ->).
  assert (injectors wc !! length (injectors w0) = Some (set_instance Circular i)) as Hc.
  { subst wc w1. simpl. rewrite insert_snoc. apply lookup_snoc. }
  rewrite (resolve_here wc config_provider _ _ cfg Hc eq_refl) in Hcfg.
  injection Hcfg as <-. exists href. split; [done|]. split; [done|].
  subst wc w1. unfold set_injectors, constructed. simpl. by rewrite !insert_snoc.
Qed.
End RegistrationFacts.

(** ** One adapter per scope *)

Section Scope.
Context {P : Platform}.
Implicit Types (w : world P) (sv : service) (cl : client P).

Lemma computed_run this a w :
  SurrealService.computed this a w =
    match services w !! this with
    | None => (Throw dangling, w)
    | Some sv =>
        match SurrealService.cell a sv with
        | Some v => (Ok v, w)
        | None =>
            match clients w !! db sv with
            | None => (Throw dangling, w)
            | Some cl =>
                let v := dprop (surreal P) (SurrealService.property a) (dst cl) in
                (Ok v, set_services <[this := SurrealService.fill a v sv]> w)
            end
        end
    end.
Proof.
  unfold SurrealService.computed, self. unfold bind at 1.
  destruct (services w !! this) as [sv|] eqn:Hs; simpl; [|done].
  destruct (SurrealService.cell a sv); [done|].
  unfold SurrealService.db_prop, self. unfold bind at 1. unfold bind at 1.
  rewrite Hs. simpl. unfold bind at 1.
  by destruct (clients w !! db sv).
Qed.

Lemma fill_db a v sv : db (SurrealService.fill a v sv) = db sv.
Proof. by destruct a. Qed.

Lemma fill_config a v sv : config (SurrealService.fill a v sv) = config sv.
Proof. by destruct a. Qed.

Lemma fill_cell a v sv : SurrealService.cell a (SurrealService.fill a v sv) = Some v.
Proof. by destruct a. Qed.

(** Inside a scope whose injector [r] already holds adapter [s], no
    action changes that injector, the number of clients, or the client
    and configuration [s] is bound to. *)
Lemma step_settled r i n s c cfg w a :
  service_provider i = true -> service_instance i = Built s ->
  settled r i n s c cfg w -> within w r a ->
  settled r i n s c cfg (step w a).
Proof.
  intros Hp Hi (Hr & Hlen & sv & Hs & Hcfg & Hdb) Ha.
  destruct a as [j | this o args | o ob | this a | parent]; simpl in *.
  - rewrite inject_service_run, Ha, Hr, Hi. simpl. unfold settled. eauto 10.
  - destruct (invoke this o args w) as [[s'|e] w'] eqn:Hrun; simpl.
    + apply invoke_Ok in Hrun as (sv' & cl & r' & _ & _ & _ & _ & ->).
      unfold settled. simpl. rewrite length_insert. eauto 10.
    + apply invoke_Throw in Hrun as ->. unfold settled. eauto 10.
  - unfold settled. simpl. eauto 10.
  - rewrite computed_run.
    destruct (services w !! this) as [sv'|] eqn:Hs'; simpl; [|unfold settled; eauto 10].
    destruct (SurrealService.cell a sv'); simpl; [unfold settled; eauto 10|].
    destruct (clients w !! db sv') as [cl|]; simpl; [|unfold settled; eauto 10].
    split; [done|]. split; [done|]. simpl.
    destruct (decide (this = s)) as [->|Hne].
    + rewrite Hs in Hs'. injection Hs' as <-.
      eexists. rewrite list_lookup_insert_eq by (by eapply lookup_lt_Some).
      split; [done|]. by rewrite fill_db, fill_config.
    + exists sv. by rewrite list_lookup_insert_ne.
  - rewrite create_injector_run.
    destruct (match parent with Some _ => _ | None => _ end); [|unfold settled; eauto 10].
    simpl. unfold settled. simpl. split; [|eauto 10]. by apply lookup_app_l_Some.
Qed.

Lemma exec_settled r i n s c cfg l :
  service_provider i = true -> service_instance i = Built s ->
  forall w, stays_within r l w -> settled r i n s c cfg w ->
            settled r i n s c cfg (exec l w).
Proof.
  intros Hp Hi. induction l as [|a l IH]; intros w Hl Hw; simpl; [done|].
  destruct Hl as [Ha Hl]. apply IH; [done|]. by eapply step_settled.
Qed.

(** C4, as the code has it.  A registration builds nothing.  The first
    retrieval that succeeds builds one client and binds the adapter to
    it and to the registered configuration.  From then on, whatever the
    application does inside that scope and however often it retrieves
    the adapter, the same adapter comes back, no further client appears,
    and every method of the adapter sends its request to that one
    client. *)
Theorem one_client_per_scope parent cfg w0 r w1 s w2 :
  create_injector parent [SurrealModule.forRoot cfg] w0 = (Ok r, w1) ->
  inject_service r w1 = (Ok s, w2) ->
  clients w1 = clients w0 /\
  length (clients w2) = S (length (clients w0)) /\
  forall l, stays_within r l w2 ->
    let w3 := exec l w2 in
    inject_service r w3 = (Ok s, w3) /\
    length (clients w3) = S (length (clients w0)) /\
    resolve w3 config_provider r = Some cfg /\
    (exists sv, services w3 !! s = Some sv /\ config sv = cfg /\
                db sv = length (clients w0)) /\
    forall o args s' w4, invoke s o args w3 = (Ok s', w4) ->
      pclient (source s') = length (clients w0) /\
      length (clients w4) = S (length (clients w0)).
Proof.
  intros Hreg Hinj.
  destruct (first_injection _ _ _ _ _ _ _ Hreg Hinj) as (href & Hurl & -> & ->).
  apply registration_Ok in Hreg as [-> ->].
  set (i := created parent [SurrealModule.forRoot cfg]).
  set (s := length (services w0)). set (r := length (injectors w0)).
  match goal with |- context [exec _ ?w] => set (w2 := w) end.
  assert (injectors w2 !! r = Some (set_instance (Built s) i)) as Hr by apply lookup_snoc.
  assert (length (clients w2) = S (length (clients w0))) as Hlen.
  { subst w2. simpl. rewrite length_app. simpl. lia. }
  assert (settled r (set_instance (Built s) i) (S (length (clients w0))) s
            (length (clients w0)) cfg w2) as Hset.
  { split; [done|]. split; [done|]. subst w2 s. simpl. eexists.
    split; [apply lookup_snoc|]. done. }
  split; [done|]. split; [done|].
  intros l Hl w3.
  pose proof (exec_settled r (set_instance (Built s) i) _ s _ cfg l eq_refl eq_refl
                w2 Hl Hset)
    as (Hr3 & Hlen3 & sv & Hs & Hcfg & Hdb).
  fold w3 in Hr3, Hlen3, Hs.
  split; [|split; [|split; [|split]]].
  - rewrite inject_service_run.
    by rewrite (owner_of_provider w3 r _ Hr3 eq_refl), Hr3.
  - lia.
  - by apply (resolve_here w3 config_provider r _ cfg Hr3).
  - eauto.
  - intros o args s' w4 Hrun.
    apply invoke_Ok in Hrun as (sv' & cl & r' & Hs' & _ & _ & -> & ->).
    rewrite Hs in Hs'. injection Hs' as <-. simpl.
    rewrite length_insert. split; [done | lia].
Qed.
End Scope.

(** ** The eager connection *)

Section Eager.
Context {P : Platform}.
Implicit Types (w : world P) (sv : service) (cl : client P).

Lemma constructed_requests cfg href w :
  requests_of (constructed cfg href w) (length (clients w)) =
    [Call "connect" [VURL href; VObj (options cfg)]].
Proof. unfold requests_of, journal_of. simpl. by rewrite lookup_snoc. Qed.

Lemma sent_Some sv o args :
  o <> Op.connect \/ is_Some (URL_parse P (url (config sv))) ->
  is_Some (sent P sv o args).
Proof.
  intros H. destruct o; simpl; eauto.
  destruct H as [H | [href ->]]; [done | simpl; eauto].
Qed.

Lemma sent_None sv o args :
  sent P sv o args = None ->
  o = Op.connect /\ URL_parse P (url (config sv)) = None.
Proof.
  destruct o; simpl; try discriminate;
    try (destruct (truthy (arg 0 args)); discriminate).
  destruct (URL_parse P (url (config sv))); [discriminate | done].
Qed.

(** A method of an existing adapter computes its request and hands it to
    the driver; the one thing that can come in between is [new URL] in
    [connect]. *)
Lemma invoke_live this o args w sv cl :
  services w !! this = Some sv -> clients w !! db sv = Some cl ->
  invoke this o args w =
    match sent P sv o args with
    | None => (Throw (VError "TypeError" "Invalid URL"), w)
    | Some r =>
        match refusal r (dst cl) with
        | Some e => (Throw e, w)
        | None =>
            (Ok (from {| pclient := db sv; pindex := length (journal cl) |}),
             served (db sv) r cl w)
        end
    end.
Proof.
  intros Hs Hc. rewrite invoke_run, Hs.
  destruct (sent P sv o args) as [r|]; [|done]. by apply wrapped_live.
Qed.

(** C5.  Building the adapter sends exactly one request to its driver
    client, a [connect] with the endpoint and options of the
    configuration the injector resolves; the client is new, and whatever
    the application invokes afterwards comes second in its journal. *)
Theorem construction_connects_once inj w s w' :
  SurrealFactory inj w = (Ok s, w') ->
  exists cfg href sv,
    resolve w config_provider inj = Some cfg /\
    URL_parse P (url cfg) = Some href /\
    services w' !! s = Some sv /\ config sv = cfg /\
    clients w !! db sv = None /\
    requests_of w' (db sv) = [Call "connect" [VURL href; VObj (options cfg)]] /\
    forall o args s' w'', invoke s o args w' = (Ok s', w'') ->
      exists r, requests_of w'' (db sv) =
                  [Call "connect" [VURL href; VObj (options cfg)]; r].
Proof.
  intros H. apply SurrealFactory_Ok in H as (cfg & href & Hcfg & Hurl & -> & ->).
  exists cfg, href, (fresh_service (length (clients w)) cfg).
  assert (services (constructed cfg href w) !! length (services w) =
            Some (fresh_service (length (clients w)) cfg)) as Hs by apply lookup_snoc.
  repeat split; auto.
  - simpl. by apply lookup_ge_None.
  - apply constructed_requests.
  - intros o args s' w'' Hrun.
    apply invoke_Ok in Hrun as (sv' & cl & r & Hs' & Hc & _ & _ & ->).
    rewrite Hs in Hs'. injection Hs' as <-. simpl db in *.
    exists r. rewrite served_requests by done. by rewrite constructed_requests.
Qed.

(** C9, as the code has it.  A method of an existing adapter throws in
    two cases only, and changes nothing when it does: [connect] throws the
    [TypeError] of [new URL] when the configured endpoint does not parse,
    before anything is sent; and any method lets through what the driver
    call itself throws.  An error on a returned stream is the rejection
    reason of the request the method sent.  A registration throws nothing
    but the duplicate-registration error.  Building the adapter throws the
    container's missing-provider error, that [TypeError], or what the
    driver's [connect] throws, and in each case the new client has been
    sent nothing. *)
Theorem throws_of_the_layer this sv cl w :
  services w !! this = Some sv -> clients w !! db sv = Some cl ->
  (forall o args x w', invoke this o args w = (Throw x, w') ->
     w' = w /\
     ((o = Op.connect /\ URL_parse P (url (config sv)) = None /\
       x = VError "TypeError" "Invalid URL") \/
      (exists r, sent P sv o args = Some r /\ refusal r (dst cl) = Some x))) /\
  (forall o args s w', invoke this o args w = (Ok s, w') ->
     forall e, In (Error e) (emissions w' s) ->
       exists r, sent P sv o args = Some r /\ (perform r (dst cl)).2 = Rejects e) /\
  (URL_parse P (url (config sv)) = None ->
     forall args, invoke this Op.connect args w =
                    (Throw (VError "TypeError" "Invalid URL"), w)) /\
  (forall parent imports x w0 w1,
     match parent with Some p => is_Some (injectors w0 !! p) | None => True end ->
     create_injector parent imports w0 = (Throw x, w1) ->
     x = SurrealModule.already_loaded /\ w1 = w0) /\
  (forall inj x w0 w1, SurrealFactory inj w0 = (Throw x, w1) ->
     requests_of w1 (length (clients w0)) = [] /\
     match resolve w0 config_provider inj with
     | None =>
         x = VError "NullInjectorError"
               ("No provider for InjectionToken " ++ SURREAL_CONFIG_TOKEN)%string
     | Some cfg =>
         match URL_parse P (url cfg) with
         | None => x = VError "TypeError" "Invalid URL"
         | Some href =>
             refusal (Call "connect" [VURL href; VObj (options cfg)])
               (dnew (surreal P)) = Some x
         end
     end).
Proof.
  intros Hs Hc. split; [|split; [|split; [|split]]].
  - intros o args x w'. rewrite (invoke_live _ o args _ _ _ Hs Hc).
    destruct (sent P sv o args) as [r|] eqn:Hr.
    + destruct (refusal r (dst cl)) eqn:Hx; [|discriminate].
      intros [= <- <-]. split; [done|]. right. eauto.
    + apply sent_None in Hr as [-> Hurl]. intros [= <- <-]. split; [done|]. by left.
  - intros o args s w'. rewrite (invoke_live _ o args _ _ _ Hs Hc).
    destruct (sent P sv o args) as [r|] eqn:Hr; [|discriminate].
    destruct (refusal r (dst cl)); [discriminate|].
    intros [= <- <-] e He. exists r. split; [done|].
    rewrite served_emissions in He by done.
    destruct (perform r (dst cl)).2; simpl in He; intuition congruence.
  - intros Hurl args. rewrite invoke_run, Hs. simpl. by rewrite Hurl.
  - intros parent imports x w0 w1 Hp. rewrite create_injector_run.
    assert (match parent with
            | Some p => bool_decide (is_Some (injectors w0 !! p))
            | None => true
            end = true) as ->.
    { destruct parent; [by apply bool_decide_eq_true_2 | done]. }
    destruct (_ && _); [|discriminate]. by intros [= <- <-].
  - intros inj x w0 w1. unfold SurrealFactory. rewrite new_run. cbv zeta.
    destruct (resolve w0 config_provider inj) as [cfg|].
    + destruct (URL_parse P (url cfg)) as [href|].
      * destruct (refusal _ (dnew (surreal P))) eqn:Hx; [|discriminate].
        intros [= <- <-]. split; [|done].
        unfold requests_of, journal_of. simpl. by rewrite lookup_snoc.
      * intros [= <- <-]. split; [|done].
        unfold requests_of, journal_of. simpl. by rewrite lookup_snoc.
    + intros [= <- <-]. split; [|done].
      unfold requests_of, journal_of. simpl. by rewrite lookup_snoc.
Qed.
End Eager.

(** ** The memoised accessors *)

Section Accessors.
Context {P : Platform}.
Implicit Types (w : world P) (sv : service) (cl : client P).

Lemma fill_keeps a b v x sv :
  SurrealService.cell a sv = None -> SurrealService.cell b sv = Some x ->
  SurrealService.cell b (SurrealService.fill a v sv) = Some x.
Proof. destruct a, b; simpl; congruence. Qed.

Lemma SurrealFactory_services inj w r w' :
  SurrealFactory inj w = (r, w') ->
  exists extra, services w' = services w ++ extra.
Proof.
  unfold SurrealFactory. rewrite new_run. cbv zeta.
  destruct (resolve w config_provider inj) as [cfg|].
  - destruct (URL_parse P (url cfg)); [destruct (refusal _ (dnew (surreal P)))|];
      intros [= _ <-]; simpl; eauto.
  - intros [= _ <-]. exists []. simpl. by rewrite app_nil_r.
Qed.

(** A filled cell stays filled with the same value, whatever happens. *)
Lemma step_keeps_cell this b x w a :
  (exists sv, services w !! this = Some sv /\ SurrealService.cell b sv = Some x) ->
  exists sv, services (step w a) !! this = Some sv /\ SurrealService.cell b sv = Some x.
Proof.
  intros (sv & Hs & Hb). destruct a as [j | this' o args | o ob | this' a | parent]; simpl.
  - rewrite inject_service_run.
    destruct (owner w j) as [o|]; [|eauto].
    destruct (injectors w !! o) as [i|]; [|eauto].
    destruct (service_instance i); [|eauto|eauto].
    destruct (build o i _) as [[s|e] w'] eqn:Hf;
      apply build_world in Hf as [-> | [r' Hf]]; simpl; eauto;
      apply SurrealFactory_services in Hf as [extra Hf]; simpl in Hf; rewrite Hf;
      exists sv; (split; [by apply lookup_app_l_Some | done]).
  - destruct (invoke this' o args w) as [[s'|e] w'] eqn:Hrun; simpl.
    + apply invoke_Ok in Hrun as (? & ? & ? & _ & _ & _ & _ & ->). simpl. eauto.
    + apply invoke_Throw in Hrun as ->. eauto.
  - eauto.
  - rewrite computed_run.
    destruct (services w !! this') as [sv'|] eqn:Hs'; simpl; [|eauto].
    destruct (SurrealService.cell a sv') eqn:Ha; simpl; [eauto|].
    destruct (clients w !! db sv') as [cl|]; simpl; [|eauto].
    destruct (decide (this' = this)) as [->|Hne].
    + rewrite Hs in Hs'. injection Hs' as <-.
      eexists. rewrite list_lookup_insert_eq by (by eapply lookup_lt_Some).
      split; [done|]. by apply fill_keeps.
    + exists sv. by rewrite list_lookup_insert_ne.
  - rewrite create_injector_run.
    destruct (match parent with Some _ => _ | None => _ end); simpl; eauto.
Qed.

(** Once an accessor has been read, every later read returns the value
    of that first read, whatever the driver has been through since. *)
Lemma computed_frozen this a v w w1 :
  SurrealService.computed this a w = (Ok v, w1) ->
  forall l, SurrealService.computed this a (exec l w1) = (Ok v, exec l w1).
Proof.
  intros H.
  assert (exists sv, services w1 !! this = Some sv /\ SurrealService.cell a sv = Some v)
    as Hcell.
  { rewrite computed_run in H.
    destruct (services w !! this) as [sv|] eqn:Hs; [|discriminate].
    destruct (SurrealService.cell a sv) eqn:Ha.
    - injection H as <- <-. eauto.
    - destruct (clients w !! db sv) as [cl|]; [|discriminate].
      injection H as <- <-. simpl. eexists.
      rewrite list_lookup_insert_eq by (by eapply lookup_lt_Some).
      split; [done|]. apply fill_cell. }
  clear H. intros l. revert w1 Hcell.
  induction l as [|x l IH]; intros w1 Hcell; simpl.
  - destruct Hcell as (sv & Hs & Hc). by rewrite computed_run, Hs, Hc.
  - apply IH. by apply step_keeps_cell.
Qed.

(** A read never touches the driver clients. *)
Lemma computed_clients this a w :
  clients (SurrealService.computed this a w).2 = clients w.
Proof.
  rewrite computed_run. destruct (services w !! this) as [sv|]; [|done].
  destruct (SurrealService.cell a sv); [done|].
  by destruct (clients w !! db sv).
Qed.
End Accessors.

(** ** The tree stays well formed *)

Section WellFormed.
Context {P : Platform}.
Implicit Types (w : world P) (injs : list injector).

Lemma older_parents_ext injs1 injs2 :
  parent <$> injs1 = parent <$> injs2 -> older_parents injs1 -> older_parents injs2.
Proof.
  intros Heq Hwf j i p Hj Hp.
  assert ((parent <$> injs1) !! j = Some (Some p)) as H.
  { rewrite Heq, list_lookup_fmap, Hj. simpl. by rewrite Hp. }
  rewrite list_lookup_fmap in H.
  destruct (injs1 !! j) as [i1|] eqn:H1; [|discriminate].
  injection H as H. eauto.
Qed.

Lemma SurrealFactory_injectors inj w r w' :
  SurrealFactory inj w = (r, w') -> injectors w' = injectors w.
Proof.
  unfold SurrealFactory. rewrite new_run. cbv zeta.
  destruct (resolve w config_provider inj) as [cfg|]; [|by intros [= _ <-]].
  destruct (URL_parse P (url cfg)); [destruct (refusal _ (dnew (surreal P)))|];
    by intros [= _ <-].
Qed.

Lemma build_injectors o i w r w' :
  build o i w = (r, w') -> injectors w' = injectors w.
Proof.
  intros H. apply build_world in H as [-> | [r' H]]; [done|].
  by apply SurrealFactory_injectors in H.
Qed.

Lemma inject_service_parents j w :
  parent <$> injectors (inject_service j w).2 = parent <$> injectors w.
Proof.
  rewrite inject_service_run.
  destruct (owner w j) as [o|]; [|done].
  destruct (injectors w !! o) as [i|] eqn:Ho; [|done].
  destruct (service_instance i); [|done|done].
  assert (forall sl, parent <$> <[o := set_instance sl i]> (injectors w) =
                     parent <$> injectors w) as Hc.
  { intros sl. rewrite list_fmap_insert. simpl. apply list_insert_id.
    by rewrite list_lookup_fmap, Ho. }
  destruct (build o i _) as [[s|e] w'] eqn:Hb; simpl;
    apply build_injectors in Hb; simpl in Hb; rewrite Hb; [|by apply Hc].
  rewrite list_insert_insert_eq. apply Hc.
Qed.

(** No action of the application breaks the injector tree. *)
Lemma step_older_parents w a :
  older_parents (injectors w) -> older_parents (injectors (step w a)).
Proof.
  intros Hwf.
  destruct a as [j | this o args | o ob | this a | parent]; simpl.
  - eapply older_parents_ext; [|exact Hwf]. symmetry. apply inject_service_parents.
  - destruct (invoke this o args w) as [[s'|e] w'] eqn:Hrun; simpl.
    + by apply invoke_Ok in Hrun as (? & ? & ? & _ & _ & _ & _ & ->).
    + by apply invoke_Throw in Hrun as ->.
  - done.
  - rewrite computed_run. destruct (services w !! this) as [sv|]; [|done].
    destruct (SurrealService.cell a sv); [done|].
    by destruct (clients w !! db sv).
  - eapply create_injector_older; [exact Hwf|]. apply surjective_pairing.
Qed.

Lemma exec_older_parents l w :
  older_parents (injectors w) -> older_parents (injectors (exec l w)).
Proof.
  revert w. induction l as [|a l IH]; intros w Hwf; simpl; [done|].
  by apply IH, step_older_parents.
Qed.
End WellFormed.

(** ** What a call, a read and a run leave alone *)

Section Frames.
Context {P : Platform}.
Implicit Types (w : world P) (sv : service) (cl : client P).

Lemma invoke_frame this o args w :
  let w' := (invoke this o args w).2 in
  services w' = services w /\ injectors w' = injectors w /\
  subscriptions w' = subscriptions w /\
  length (clients w') = length (clients w) /\
  (forall sv c, services w !! this = Some sv -> c <> db sv ->
     clients w' !! c = clients w !! c) /\
  (forall e, (invoke this o args w).1 = Throw e -> w' = w).
Proof.
  intros w'. subst w'.
  destruct (invoke this o args w) as [[s|e] w'] eqn:Hrun; simpl.
  - apply invoke_Ok in Hrun as (sv & cl & r & Hs & Hc & _ & _ & ->).
    repeat split; try done.
    + apply served_length.
    + intros sv' c Hs' Hne. rewrite Hs in Hs'. injection Hs' as <-.
      by apply served_clients_ne.
  - apply invoke_Throw in Hrun as ->. repeat split; done.
Qed.

Lemma read_frame this a w :
  let w' := (SurrealService.computed this a w).2 in
  clients w' = clients w /\ injectors w' = injectors w /\
  subscriptions w' = subscriptions w /\ bindings w' = bindings w /\
  forall s, s <> this -> services w' !! s = services w !! s.
Proof.
  intros w'. subst w'. rewrite computed_run.
  destruct (services w !! this) as [sv|] eqn:Hs; [|done].
  destruct (SurrealService.cell a sv); [done|].
  destruct (clients w !! db sv) as [cl|]; [|done].
  simpl. repeat split; try done.
  - unfold bindings. simpl. rewrite list_fmap_insert, fill_db, fill_config.
    apply list_insert_id. by rewrite list_lookup_fmap, Hs.
  - intros s Hne. by apply list_lookup_insert_ne.
Qed.

Lemma journal_of_app w w' c extra :
  clients w' = clients w ++ extra ->
  exists e, journal_of w' c = journal_of w c ++ e.
Proof.
  intros H. unfold journal_of. rewrite H.
  destruct (clients w !! c) as [cl|] eqn:Hc.
  - rewrite (lookup_app_l_Some _ _ _ _ Hc). exists []. by rewrite app_nil_r.
  - eauto.
Qed.

Lemma SurrealFactory_clients inj w r w' :
  SurrealFactory inj w = (r, w') -> exists cl, clients w' = clients w ++ [cl].
Proof.
  unfold SurrealFactory. rewrite new_run. cbv zeta.
  destruct (resolve w config_provider inj) as [cfg|]; [|intros [= _ <-]; simpl; eauto].
  destruct (URL_parse P (url cfg)); [destruct (refusal _ (dnew (surreal P)))|];
    intros [= _ <-]; simpl; eauto.
Qed.

Lemma inject_service_heaps j w :
  exists cs ss, clients (inject_service j w).2 = clients w ++ cs /\
                services (inject_service j w).2 = services w ++ ss.
Proof.
  rewrite inject_service_run.
  destruct (owner w j) as [o|]; [|exists [], []; by rewrite !app_nil_r].
  destruct (injectors w !! o) as [i|]; [|exists [], []; by rewrite !app_nil_r].
  destruct (service_instance i); try (exists [], []; by rewrite !app_nil_r).
  destruct (build o i _) as [[s|e] w'] eqn:Hb; simpl;
    apply build_world in Hb as [-> | [r' Hb]]; simpl;
    try (exists [], []; by rewrite !app_nil_r);
    destruct (SurrealFactory_clients _ _ _ _ Hb) as [cl Hc];
    destruct (SurrealFactory_services _ _ _ _ Hb) as [ss Hss];
    simpl in Hc, Hss; eauto.
Qed.

(** One command never rewrites history: each journal only grows, and each
    service keeps its client and configuration. *)
Lemma obey_grows w c :
  (forall k, exists e, journal_of (obey w c) k = journal_of w k ++ e) /\
  (exists bs, bindings (obey w c) = bindings w ++ bs).
Proof.
  destruct c as [parent imports | [j | this o args | o ob | this a | parent]]; simpl.
  - rewrite create_injector_run.
    destruct (match parent with Some _ => _ | None => _ end);
      [destruct (_ && _)|]; simpl;
      (split; [intros k; exists [] | exists []]; by rewrite app_nil_r).
  - destruct (inject_service_heaps j w) as (cs & ss & Hc & Hs). split.
    + intros k. by eapply journal_of_app.
    + exists ((fun sv => (db sv, config sv)) <$> ss). unfold bindings.
      by rewrite Hs, fmap_app.
  - destruct (invoke this o args w) as [[s|e] w'] eqn:Hrun; simpl.
    + apply invoke_Ok in Hrun as (sv & cl & r & Hs & Hc & _ & _ & ->). split.
      * intros k. destruct (decide (db sv = k)) as [<-|Hne].
        -- rewrite served_journal by done. eauto.
        -- rewrite served_journal_ne by done. exists []. by rewrite app_nil_r.
      * exists []. by rewrite app_nil_r.
    + apply invoke_Throw in Hrun as ->.
      split; [intros k; exists [] | exists []]; by rewrite app_nil_r.
  - split; [intros k; exists [] | exists []]; by rewrite app_nil_r.
  - destruct (read_frame this a w) as (Hc & _ & _ & Hb & _).
    split.
    + intros k. unfold journal_of. rewrite Hc. exists []. by rewrite app_nil_r.
    + exists []. by rewrite app_nil_r.
  - rewrite create_injector_run.
    destruct (match parent with Some _ => _ | None => _ end);
      simpl; (split; [intros k; exists [] | exists []]; by rewrite app_nil_r).
Qed.

Lemma run_journal l w c :
  exists e, journal_of (run_commands l w) c = journal_of w c ++ e.
Proof.
  revert w. induction l as [|x l IH]; intros w; simpl.
  - exists []. by rewrite app_nil_r.
  - destruct (IH (obey w x)) as [e2 H2].
    destruct (proj1 (obey_grows w x) c) as [e1 H1].
    exists (e1 ++ e2). by rewrite H2, H1, app_assoc.
Qed.

Lemma run_bindings l w :
  exists bs, bindings (run_commands l w) = bindings w ++ bs.
Proof.
  revert w. induction l as [|x l IH]; intros w; simpl.
  - exists []. by rewrite app_nil_r.
  - destruct (IH (obey w x)) as [b2 H2].
    destruct (proj2 (obey_grows w x)) as [b1 H1].
    exists (b1 ++ b2). by rewrite H2, H1, app_assoc.
Qed.

Lemma run_keeps_binding l w s sv :
  services w !! s = Some sv ->
  exists sv', services (run_commands l w) !! s = Some sv' /\
              db sv' = db sv /\ config sv' = config sv.
Proof.
  intros Hs. destruct (run_bindings l w) as [bs Hb].
  assert (bindings (run_commands l w) !! s = Some (db sv, config sv)) as H.
  { rewrite Hb. apply lookup_app_l_Some. unfold bindings.
    by rewrite list_lookup_fmap, Hs. }
  unfold bindings in H. rewrite list_lookup_fmap in H.
  destruct (services (run_commands l w) !! s) as [sv'|]; [|discriminate].
  injection H as H1 H2. eauto.
Qed.

Lemma settlement_journal w p :
  settlement w p = settles <$> journal_of w (pclient p) !! pindex p.
Proof.
  unfold settlement, journal_of.
  destruct (clients w !! pclient p) as [cl|]; simpl; [|done].
  by destruct (journal cl !! pindex p).
Qed.

Lemma run_keeps_settlement l w p :
  is_Some (settlement w p) -> settlement (run_commands l w) p = settlement w p.
Proof.
  intros [oc Hoc]. rewrite Hoc. rewrite settlement_journal in Hoc |- *.
  destruct (run_journal l w (pclient p)) as [e He]. rewrite He.
  destruct (journal_of w (pclient p) !! pindex p) as [x|] eqn:Hx; [|discriminate].
  by rewrite (lookup_app_l_Some _ _ _ _ Hx).
Qed.
End Frames.

(** ** The initial connection *)

Section Initial.
Context {P : Platform}.
Implicit Types (w : world P) (sv : service) (cl : client P).

Lemma constructed_journal cfg href w :
  journal_of (constructed cfg href w) (length (clients w)) =
    [{| req := Call "connect" [VURL href; VObj (options cfg)];
        settles := (perform (Call "connect" [VURL href; VObj (options cfg)])
                      (dnew (surreal P))).2 |}].
Proof. unfold journal_of. simpl. by rewrite lookup_snoc. Qed.

(** C10.  When the configuration resolves, its endpoint parses, and the
    driver takes the initial [connect] and rejects it with [e], the
    adapter is built all the same.  The one subscription to the stream of
    that request has no callbacks, so [e] reaches no callback and is
    reported to the host as an unhandled error.  The stream itself is
    handed to nobody: whatever the application goes on to do, no method
    call ever returns it.  And every method of the new adapter still takes
    its request to the driver: it returns the stream of that request, or
    lets through what the driver throws. *)
Theorem failed_initial_connect_is_unhandled inj cfg href e w :
  resolve w config_provider inj = Some cfg ->
  URL_parse P (url cfg) = Some href ->
  dthrows (surreal P) "connect" [VURL href; VObj (options cfg)]
    (dnew (surreal P)) = None ->
  (dcall (surreal P) "connect" [VURL href; VObj (options cfg)]
     (dnew (surreal P))).2 = Rejects e ->
  exists s w' sv cl p,
    SurrealFactory inj w = (Ok s, w') /\
    services w' !! s = Some sv /\ config sv = cfg /\
    clients w' !! db sv = Some cl /\
    subscriptions w' = subscriptions w ++ [(p, no_handlers)] /\
    request_of w' p = Some (Call "connect" [VURL href; VObj (options cfg)]) /\
    settlement w' p = Some (Rejects e) /\
    effects no_handlers (Rejects e) = [Unhandled e] /\
    (forall l this o args s' w'',
       invoke this o args (run_commands l w') = (Ok s', w'') -> source s' <> p) /\
    (forall o args, exists r,
       sent P sv o args = Some r /\
       invoke s o args w' =
         match refusal r (dst cl) with
         | Some x => (Throw x, w')
         | None =>
             (Ok (from {| pclient := db sv; pindex := 1 |}), served (db sv) r cl w')
         end).
Proof.
  intros Hcfg Hurl Htaken Hrej.
  assert (services (constructed cfg href w) !! length (services w) =
            Some (fresh_service (length (clients w)) cfg)) as Hs by apply lookup_snoc.
  assert (clients (constructed cfg href w) !! length (clients w) =
            Some (record (Call "connect" [VURL href; VObj (options cfg)]) fresh_client))
    as Hc by apply lookup_snoc.
  exists (length (services w)), (constructed cfg href w), (fresh_service (length (clients w)) cfg),
    (record (Call "connect" [VURL href; VObj (options cfg)]) fresh_client),
    {| pclient := length (clients w); pindex := 0 |}.
  split; [|split; [|split; [|split; [|split; [|split; [|split; [|split; [|split]]]]]]]].
  - unfold SurrealFactory. rewrite new_run. cbv zeta. rewrite Hcfg, Hurl.
    simpl refusal. by rewrite Htaken.
  - exact Hs.
  - reflexivity.
  - exact Hc.
  - reflexivity.
  - unfold request_of. simpl. by rewrite lookup_snoc.
  - unfold settlement. simpl. rewrite lookup_snoc. simpl. by rewrite Hrej.
  - reflexivity.
  - intros l this o args s' w'' Hrun Heq.
    apply invoke_Ok in Hrun as (sv' & cl' & r & _ & Hc' & _ & -> & _).
    simpl in Heq. injection Heq as Hdb Hlen.
    destruct (run_journal l (constructed cfg href w) (length (clients w))) as [ex He].
    rewrite constructed_journal in He. unfold journal_of in He.
    rewrite Hdb in Hc'. rewrite Hc' in He. rewrite He in Hlen. discriminate.
  - intros o args.
    destruct (sent_Some (P:=P) (fresh_service (length (clients w)) cfg) o args) as [r Hr].
    { right. simpl. rewrite Hurl. eauto. }
    exists r. split; [exact Hr|].
    by rewrite (invoke_live _ o args _ _ _ Hs Hc), Hr.
Qed.
End Initial.

(** ** Runs on the sample platform *)

Section Runs.
Import Scenario.

(** C8, on the code.  In the README application the status is read
    (``connected''), the connection is closed, and the status is read
    again: the accessor still answers ``connected'' while the driver's
    own [status] is ``disconnected''. *)
Theorem status_frozen_at_first_read :
  SurrealService.status 0 app = (Ok (VStr "connected"), status_read) /\
  SurrealService.db_prop 0 SurrealService.Status closed =
    (Ok (VStr "disconnected"), closed) /\
  (SurrealService.status 0 closed).1 = Ok (VStr "connected").
Proof. repeat split; vm_compute; reflexivity. Qed.

(** The first read is not free of effects either: it fills the cell. *)
Example first_read_changes_the_adapter :
  services app !! 0 = Some app_service /\
  services status_read !! 0 =
    Some (SurrealService.fill SurrealService.Status (VStr "connected") app_service).
Proof. split; vm_compute; reflexivity. Qed.

(** [run(name, args)] loses its argument list: the second parameter is
    not a string, and the third one is what gets passed on. *)
Example run_drops_the_arguments :
  requests_of (invoke 0 Op.run [VStr "fn::greet"; VArr [VStr "a"]] app).2 0 =
    requests_of app 0 ++ [Call "run" [VStr "fn::greet"; VUndefined]].
Proof. vm_compute; reflexivity. Qed.

(** The earlier [unsubscribeLive] adds a callback of its own. *)
Example previous_unsubscribeLive_adds_a_callback :
  requests_of (PreviousService.unsubscribeLive 0 (VStr "uuid") app).2 0 =
    requests_of app 0 ++ [Call "unSubscribeLive" [VStr "uuid"; noop_callback]].
Proof. vm_compute; reflexivity. Qed.
End Runs.

(** ** The statements at work *)

Section Witnesses.
Import Scenario.

Lemma app_older_parents : older_parents (injectors (registered Demo.up Demo.surrealConfig)).
Proof.
  eapply (create_injector_older (P:=Demo.up) None
            [SurrealModule.forRoot Demo.surrealConfig] empty_world).
  - apply older_parents_nil.
  - apply surjective_pairing.
Qed.

(** [select("example")] in the README application. *)
Example select_example_emits :
  emissions selected (from {| pclient := 0; pindex := 1 |}) =
    [Next (VArr [VStr "select"; VStr "example"]); Complete].
Proof. vm_compute; reflexivity. Qed.


(** [signin(...)] with credentials the server refuses. *)
Example signin_example_errors :
  emissions refused_signin (from {| pclient := 0; pindex := 1 |}) = [Error Demo.refused].
Proof. vm_compute; reflexivity. Qed.


(** Claim C3 as stated fails on two imports into the same injector: the
    guard skips the injector itself, nothing is thrown. *)
Lemma double_import_is_accepted :
  create_injector (P:=Demo.up) None
    [SurrealModule.forRoot Demo.surrealConfig; SurrealModule.forRoot Demo.blankConfig]
    empty_world =
  (Ok 0,
   set_injectors (fun _ =>
     [{| parent := None; module_instance := true;
         config_provider := Some Demo.blankConfig; service_provider := true;
         service_instance := NotYet |}]) empty_world).
Proof. vm_compute; reflexivity. Qed.

(** A second registration below the README application. *)
Lemma nested_registration_throws_witness :
  let w := registered Demo.up Demo.surrealConfig in
  let imports := [SurrealModule.forRoot Demo.blankConfig] in
  older_parents (injectors w) /\ imports <> [] /\ registered_above w (Some 0) /\
  create_injector (Some 0) imports w = (Throw SurrealModule.already_loaded, w).
Proof.
  intros w imports.
  assert (imports <> []) as Hne by discriminate.
  assert (registered_above w (Some 0)) as Hreg.
  { exists 0, 0, (created None [SurrealModule.forRoot Demo.surrealConfig]).
    split; [reflexivity|]. split; [by eapply encloses_self|]. split; reflexivity. }
  split; [exact app_older_parents|]. split; [exact Hne|]. split; [exact Hreg|].
  exact (proj1 (nested_registration_throws (P:=Demo.up) (Some 0) imports w
                  app_older_parents Hne) Hreg).
Defined.

(** A lazily loaded part of the README application asks for the adapter
    from an injector of its own and gets the adapter of the root. *)
Example child_injector_shares_the_adapter :
  let l := [Create (Some 0); Inject 1; Invoke 0 Op.ping []; Inject 0] in
  stays_within 0 l app /\
  inject_service 1 (exec l app) = (Ok 0, exec l app) /\
  length (clients (exec l app)) = 1.
Proof. repeat split; vm_compute; reflexivity. Qed.

(** Claim C4 as stated fails before the first retrieval: the module is
    registered and there is no client at all. *)
Lemma no_client_before_first_retrieval :
  register Demo.up Demo.surrealConfig empty_world =
    (Ok 0, registered Demo.up Demo.surrealConfig) /\
  clients (registered Demo.up Demo.surrealConfig) = [] /\
  services (registered Demo.up Demo.surrealConfig) = [].
Proof. repeat split; vm_compute; reflexivity. Qed.

Lemma one_client_per_scope_witness :
  let w1 := registered Demo.up Demo.surrealConfig in
  create_injector None [SurrealModule.forRoot Demo.surrealConfig] empty_world = (Ok 0, w1) /\
  inject_service 0 w1 = (Ok 0, app) /\
  clients w1 = clients (empty_world (P:=Demo.up)) /\
  length (clients app) = 1 /\
  forall l, stays_within 0 l app ->
    let w3 := exec l app in
    inject_service 0 w3 = (Ok 0, w3) /\
    length (clients w3) = 1 /\
    resolve w3 config_provider 0 = Some Demo.surrealConfig /\
    (exists sv, services w3 !! 0 = Some sv /\ config sv = Demo.surrealConfig /\
                db sv = 0) /\
    forall o args s' w4, invoke 0 o args w3 = (Ok s', w4) ->
      pclient (source s') = 0 /\ length (clients w4) = 1.
Proof.
  intros w1.
  assert (create_injector None [SurrealModule.forRoot Demo.surrealConfig] empty_world =
            (Ok 0, w1)) as H1 by (vm_compute; reflexivity).
  assert (inject_service 0 w1 = (Ok 0, app)) as H2 by (vm_compute; reflexivity).
  split; [exact H1|]. split; [exact H2|].
  exact (one_client_per_scope (P:=Demo.up) None Demo.surrealConfig empty_world 0 w1 0 app
           H1 H2).
Defined.

Lemma construction_connects_once_witness :
  let w := registered Demo.up Demo.surrealConfig in
  let w' := (SurrealFactory 0 w).2 in
  SurrealFactory 0 w = (Ok 0, w') /\
  exists cfg href sv,
    resolve w config_provider 0 = Some cfg /\
    URL_parse Demo.up (url cfg) = Some href /\
    services w' !! 0 = Some sv /\ config sv = cfg /\
    clients w !! db sv = None /\
    requests_of w' (db sv) = [Call "connect" [VURL href; VObj (options cfg)]] /\
    forall o args s' w'', invoke 0 o args w' = (Ok s', w'') ->
      exists r, requests_of w'' (db sv) =
                  [Call "connect" [VURL href; VObj (options cfg)]; r].
Proof.
  intros w w'.
  assert (SurrealFactory 0 w = (Ok 0, w')) as H by (vm_compute; reflexivity).
  split; [exact H|].
  exact (construction_connects_once (P:=Demo.up) 0 w 0 w' H).
Defined.

(** Claim C6 as stated fails on [ping()]: the request is in the journal
    as soon as the method returns, before anyone subscribes, and two
    subscriptions later it is still the only one. *)
Lemma ping_is_sent_once_and_early :
  invoke 0 Op.ping [] app = (Ok ping_stream, pinged) /\
  subscriptions pinged = subscriptions app /\
  requests_of pinged 0 = requests_of app 0 ++ [Call "ping" []] /\
  length (subscriptions subscribed_twice) = 2 + length (subscriptions app) /\
  requests_of subscribed_twice 0 = requests_of app 0 ++ [Call "ping" []].
Proof. repeat split; vm_compute; reflexivity. Qed.

Lemma request_sent_at_call_and_shared_witness :
  invoke 0 Op.ping [] app = (Ok ping_stream, pinged) /\
  (exists r, requests_of pinged (pclient (source ping_stream)) =
               requests_of app (pclient (source ping_stream)) ++ [r] /\
             request_of pinged (source ping_stream) = Some r) /\
  forall obs,
    exists w'', subscribe_each ping_stream obs pinged = (Ok (), w'') /\
                clients w'' = clients pinged /\
                emissions w'' ping_stream = emissions pinged ping_stream.
Proof.
  assert (invoke 0 Op.ping [] app = (Ok ping_stream, pinged)) as H
    by (vm_compute; reflexivity).
  split; [exact H|].
  exact (request_sent_at_call_and_shared (P:=Demo.up) 0 Op.ping [] app _ _ H).
Defined.



Example create_example_is_forwarded :
  requests_of created_a 0 =
    requests_of app 0 ++ [Call "create" [VStr "example"; record_a]].
Proof. vm_compute; reflexivity. Qed.

(** Claim C9 as stated fails on an empty endpoint: building the adapter
    throws a [TypeError] out of [connect], the client has been sent
    nothing, and [connect] on the half-built adapter throws again. *)
Lemma empty_endpoint_throws :
  let w := registered Demo.up Demo.blankConfig in
  (inject_service 0 w).1 = Throw (VError "TypeError" "Invalid URL") /\
  requests_of (inject_service 0 w).2 0 = [] /\
  invoke 0 Op.connect [] (inject_service 0 w).2 =
    (Throw (VError "TypeError" "Invalid URL"), (inject_service 0 w).2).
Proof. repeat split; vm_compute; reflexivity. Qed.

(** What the driver throws comes out of the method as it is: [rpc] on an
    adapter whose server is down. *)
Example rpc_without_a_socket_throws :
  let w := booted Demo.down Demo.surrealConfig in
  invoke 0 Op.rpc [VStr "ping"] w = (Throw Demo.no_socket, w) /\
  requests_of w 0 =
    [Call "connect" [VURL "http://localhost:8000/rpc"; VObj (options Demo.surrealConfig)]].
Proof. split; vm_compute; reflexivity. Qed.

Lemma throws_of_the_layer_witness :
  services app !! 0 = Some app_service /\
  clients app !! db app_service = Some app_client /\
  (forall o args x w', invoke 0 o args app = (Throw x, w') ->
     w' = app /\
     ((o = Op.connect /\ URL_parse Demo.up (url (config app_service)) = None /\
       x = VError "TypeError" "Invalid URL") \/
      (exists r, sent Demo.up app_service o args = Some r /\
                 refusal r (dst app_client) = Some x))) /\
  (forall o args s w', invoke 0 o args app = (Ok s, w') ->
     forall e, In (Error e) (emissions w' s) ->
       exists r, sent Demo.up app_service o args = Some r /\
                 (perform r (dst app_client)).2 = Rejects e) /\
  (URL_parse Demo.up (url (config app_service)) = None ->
     forall args, invoke 0 Op.connect args app =
                    (Throw (VError "TypeError" "Invalid URL"), app)) /\
  (forall parent imports x (w0 w1 : world Demo.up),
     match parent with Some p => is_Some (injectors w0 !! p) | None => True end ->
     create_injector parent imports w0 = (Throw x, w1) ->
     x = SurrealModule.already_loaded /\ w1 = w0) /\
  (forall inj x (w0 w1 : world Demo.up), SurrealFactory inj w0 = (Throw x, w1) ->
     requests_of w1 (length (clients w0)) = [] /\
     match resolve w0 config_provider inj with
     | None =>
         x = VError "NullInjectorError"
               ("No provider for InjectionToken " ++ SURREAL_CONFIG_TOKEN)%string
     | Some cfg =>
         match URL_parse Demo.up (url cfg) with
         | None => x = VError "TypeError" "Invalid URL"
         | Some href =>
             refusal (Call "connect" [VURL href; VObj (options cfg)])
               (dnew (surreal Demo.up)) = Some x
         end
     end).
Proof.
  assert (services app !! 0 = Some app_service) as Hs by (vm_compute; reflexivity).
  assert (clients app !! db app_service = Some app_client) as Hc
    by (vm_compute; reflexivity).
  split; [exact Hs|]. split; [exact Hc|].
  exact (throws_of_the_layer (P:=Demo.up) 0 app_service app_client app Hs Hc).
Defined.

(** The README application against a server that is down. *)
Lemma failed_initial_connect_is_unhandled_witness :
  let w := registered Demo.down Demo.surrealConfig in
  let href := "http://localhost:8000/rpc" in
  let e := VError "Error" "connection refused" in
  resolve w config_provider 0 = Some Demo.surrealConfig /\
  URL_parse Demo.down (url Demo.surrealConfig) = Some href /\
  dthrows (surreal Demo.down) "connect" [VURL href; VObj (options Demo.surrealConfig)]
    (dnew (surreal Demo.down)) = None /\
  (dcall (surreal Demo.down) "connect" [VURL href; VObj (options Demo.surrealConfig)]
     (dnew (surreal Demo.down))).2 = Rejects e /\
  exists s w' sv cl p,
    SurrealFactory 0 w = (Ok s, w') /\
    services w' !! s = Some sv /\ config sv = Demo.surrealConfig /\
    clients w' !! db sv = Some cl /\
    subscriptions w' = subscriptions w ++ [(p, no_handlers)] /\
    request_of w' p =
      Some (Call "connect" [VURL href; VObj (options Demo.surrealConfig)]) /\
    settlement w' p = Some (Rejects e) /\
    effects no_handlers (Rejects e) = [Unhandled e] /\
    (forall l this o args s' w'',
       invoke this o args (run_commands l w') = (Ok s', w'') -> source s' <> p) /\
    (forall o args, exists r,
       sent Demo.down sv o args = Some r /\
       invoke s o args w' =
         match refusal r (dst cl) with
         | Some x => (Throw x, w')
         | None =>
             (Ok (from {| pclient := db sv; pindex := 1 |}), served (db sv) r cl w')
         end).
Proof.
  intros w href e.
  assert (resolve w config_provider 0 = Some Demo.surrealConfig) as H1
    by (vm_compute; reflexivity).
  assert (URL_parse Demo.down (url Demo.surrealConfig) = Some href) as H2
    by (vm_compute; reflexivity).
  assert (dthrows (surreal Demo.down) "connect"
            [VURL href; VObj (options Demo.surrealConfig)]
            (dnew (surreal Demo.down)) = None) as H3
    by (vm_compute; reflexivity).
  assert ((dcall (surreal Demo.down) "connect"
             [VURL href; VObj (options Demo.surrealConfig)]
             (dnew (surreal Demo.down))).2 = Rejects e) as H4
    by (vm_compute; reflexivity).
  split; [exact H1|]. split; [exact H2|]. split; [exact H3|]. split; [exact H4|].
  exact (failed_initial_connect_is_unhandled (P:=Demo.down) 0 Demo.surrealConfig
           href e w H1 H2 H3 H4).
Defined.
End Witnesses.

(** * Further properties of the code *)

(** ** What every run keeps true *)

Section Soundness.
Context {P : Platform}.
Implicit Types (w : world P) (sv : service) (cl : client P).

Lemma sound_empty : sound (empty_world (P:=P)).
Proof.
  split; [|split].
  - intros s b H. unfold bindings in H. simpl in H. by rewrite lookup_nil in H.
  - constructor.
  - intros o i s H. simpl in H. by rewrite lookup_nil in H.
Qed.

(** The ways a world may move on without breaking [sound]: clients are
    never lost, at most one service is added and then on a client that did
    not exist before, and an adapter newly handed out is one whose endpoint
    parses. *)
Lemma sound_extend w w' :
  sound w ->
  length (clients w) <= length (clients w') ->
  (bindings w' = bindings w \/
   exists cfg, bindings w' = bindings w ++ [(length (clients w), cfg)] /\
               length (clients w) < length (clients w')) ->
  (forall o i s, injectors w' !! o = Some i -> service_instance i = Built s ->
     (exists i0, injectors w !! o = Some i0 /\ service_instance i0 = Built s) \/
     (exists b, bindings w' !! s = Some b /\ is_Some (URL_parse P (url b.2)))) ->
  sound w'.
Proof.
  intros (H1 & H2 & H3) Hlen Hb Hi.
  assert (forall s b, bindings w !! s = Some b -> bindings w' !! s = Some b) as Hkeep.
  { intros s b Hs. destruct Hb as [-> | (cfg & -> & _)]; [done|].
    by apply lookup_app_l_Some. }
  split; [|split].
  - intros s b Hs. destruct Hb as [Hb | (cfg & Hb & Hlt)]; rewrite Hb in Hs.
    + specialize (H1 s b Hs). lia.
    + destruct (decide (s < length (bindings w))) as [Hlt'|Hge].
      * rewrite lookup_app_l in Hs by done. specialize (H1 s b Hs). lia.
      * rewrite lookup_app_r in Hs by lia.
        destruct (s - length (bindings w)) as [|n]; simpl in Hs;
          [|by rewrite lookup_nil in Hs].
        injection Hs as <-. simpl. lia.
  - destruct Hb as [-> | (cfg & -> & _)]; [done|].
    rewrite fmap_app. simpl. apply NoDup_app. split; [done|]. split.
    + intros x Hx Hin'. apply list_elem_of_singleton in Hin' as ->.
      apply list_elem_of_fmap in Hx as (b & Hb & Hin).
      apply list_elem_of_lookup in Hin as [s Hs]. specialize (H1 s b Hs). lia.
    + apply NoDup_singleton.
  - intros o i s Ho Hs. destruct (Hi o i s Ho Hs) as [(i0 & Ho0 & Hs0) | ?]; [|done].
    destruct (H3 o i0 s Ho0 Hs0) as (b & Hb' & Hurl). eauto.
Qed.

Lemma sound_same_heaps w w' :
  sound w -> length (clients w') = length (clients w) -> bindings w' = bindings w ->
  (forall o i s, injectors w' !! o = Some i -> service_instance i = Built s ->
     exists i0, injectors w !! o = Some i0 /\ service_instance i0 = Built s) ->
  sound w'.
Proof.
  intros Hw Hc Hb Hi. apply (sound_extend w); [done | lia | by left |].
  intros o i s Ho Hs. left. eauto.
Qed.

Lemma built_in_snoc (injs : list injector) parent imports o i s :
  (injs ++ [created parent imports]) !! o = Some i -> service_instance i = Built s ->
  injs !! o = Some i.
Proof.
  intros Ho Hs. destruct (decide (o < length injs)) as [Hlt|Hge].
  - by rewrite lookup_app_l in Ho.
  - rewrite lookup_app_r in Ho by lia.
    destruct (o - length injs) as [|n]; simpl in Ho; [|by rewrite lookup_nil in Ho].
    injection Ho as <-. discriminate.
Qed.

Lemma create_injector_sound parent imports w :
  sound w -> sound (create_injector parent imports w).2.
Proof.
  intros Hw. rewrite create_injector_run.
  destruct (match parent with Some _ => _ | None => _ end); [|done].
  destruct (_ && _); [done|]. simpl.
  apply (sound_same_heaps w); [done | done | done |].
  intros o i s Ho Hs. simpl in Ho. exists i. split; [|done].
  by eapply built_in_snoc.
Qed.

Lemma built_in_insert (injs : list injector) o i sl o' i' s :
  <[o := set_instance sl i]> injs !! o' = Some i' -> service_instance i' = Built s ->
  injs !! o' = Some i' \/ (o' = o /\ sl = Built s).
Proof.
  intros Ho Hs. destruct (decide (o = o')) as [<-|Hne].
  - destruct (decide (o < length injs)) as [Hlt|Hge].
    + rewrite list_lookup_insert_eq in Ho by done. injection Ho as <-. by right.
    + rewrite list_insert_ge in Ho by lia. by left.
  - rewrite list_lookup_insert_ne in Ho by done. by left.
Qed.

(** The world after [inject(SurrealService)]: unchanged, or stopped on the
    way (missing provider, endpoint that does not parse), or with a new
    adapter. *)
Lemma inject_service_sound j w : sound w -> sound (inject_service j w).2.
Proof.
  intros Hw. rewrite inject_service_run.
  destruct (owner w j) as [o|]; [|done].
  destruct (injectors w !! o) as [i|] eqn:Ho; [|done].
  destruct (service_instance i) eqn:Hslot; [|done|done].
  set (wc := set_injectors _ w).
  assert (forall sl o' i' s,
            <[o := set_instance sl i]> (injectors wc) !! o' = Some i' ->
            service_instance i' = Built s ->
            (exists i0, injectors w !! o' = Some i0 /\ service_instance i0 = Built s) \/
            (o' = o /\ sl = Built s)) as Hins.
  { intros sl o' i' s Ho' Hs. subst wc. simpl in Ho'.
    rewrite list_insert_insert_eq in Ho'.
    destruct (built_in_insert _ _ _ _ _ _ _ Ho' Hs) as [H | H]; [left; eauto | by right]. }
  assert (forall o' i' s, injectors wc !! o' = Some i' -> service_instance i' = Built s ->
            exists i0, injectors w !! o' = Some i0 /\ service_instance i0 = Built s) as Hwc.
  { intros o' i' s Ho' Hs. subst wc. simpl in Ho'.
    destruct (built_in_insert _ _ _ _ _ _ _ Ho' Hs) as [H | [_ [=]]]. eauto. }
  assert (forall (cs : list (client P)) x, length cs <= length (cs ++ [x])) as Hle.
  { intros cs x. rewrite length_app. simpl. lia. }
  assert (forall (w0 : world P) cfg x,
            clients w0 = clients w ++ [x] ->
            services w0 = services w ++ [fresh_service (length (clients w)) cfg] ->
            exists cfg', bindings w0 = bindings w ++ [(length (clients w), cfg')] /\
                         length (clients w) < length (clients w0)) as Hnew.
  { intros w0 cfg x Hc Hs. exists cfg. unfold bindings. rewrite Hs, Hc, fmap_app.
    split; [done|]. rewrite length_app. simpl. lia. }
  destruct (build o i wc) as [[s|e] w'] eqn:Hb; simpl.
  - apply build_Ok, SurrealFactory_Ok in Hb as (cfg & href & _ & Hurl & -> & ->).
    apply (sound_extend w); [done | apply Hle | right; by eapply Hnew |].
    intros o' i' s Ho' Hs.
    destruct (Hins _ _ _ _ Ho' Hs) as [H | [-> [= <-]]]; [by left|].
    right. exists (length (clients w), cfg). split; [|simpl; rewrite Hurl; eauto].
    unfold bindings. simpl. rewrite fmap_app. simpl.
    replace (length (services w)) with (length ((fun sv => (db sv, config sv)) <$> services w))
      by apply length_fmap.
    apply lookup_snoc.
  - apply build_world in Hb as [-> | [r' Hb]].
    + apply (sound_same_heaps w); [done | done | done | apply Hwc].
    + unfold SurrealFactory in Hb. rewrite new_run in Hb. cbv zeta in Hb.
      destruct (resolve wc config_provider o) as [cfg|].
      * destruct (URL_parse P (url cfg)) as [href|];
          [destruct (refusal _ (dnew (surreal P)))|]; injection Hb as _ <-;
          (apply (sound_extend w); [done | apply Hle | right; by eapply Hnew |]);
          intros o' i' s Ho' Hs; left; by eapply Hwc.
      * injection Hb as _ <-.
        apply (sound_extend w); [done | apply Hle | by left |].
        intros o' i' s Ho' Hs. left. by eapply Hwc.
Qed.

Lemma obey_sound w c : sound w -> sound (obey w c).
Proof.
  intros Hw.
  destruct c as [parent imports | [j | this o args | o ob | this a | parent]]; simpl.
  - by apply create_injector_sound.
  - by apply inject_service_sound.
  - destruct (invoke_frame this o args w) as (Hs & Hi & _ & Hc & _).
    apply (sound_same_heaps w); [done | done | unfold bindings; by rewrite Hs |].
    intros o' i s Ho' Hb. rewrite Hi in Ho'. eauto.
  - apply (sound_same_heaps w); [done | done | done |]. simpl. eauto.
  - destruct (read_frame this a w) as (Hc & Hi & _ & Hb & _).
    apply (sound_same_heaps w); [done | by rewrite Hc | done |].
    intros o' i s Ho' Hs. rewrite Hi in Ho'. eauto.
  - by apply create_injector_sound.
Qed.

Lemma reachable_sound w : reachable w -> sound w.
Proof.
  intros [l ->]. generalize (sound_empty). generalize (empty_world (P:=P)).
  induction l as [|c l IH]; intros w Hw; simpl; [done|].
  by apply IH, obey_sound.
Qed.
End Soundness.

(** ** The first revision at work *)

Section FirstRevision.
Context {P : Platform}.
Implicit Types (w : world P) (sv : service) (cl : client P).

(** The world a construction of the first revision leaves: a new client,
    which has served [connect] when the endpoint parses and the driver
    takes the call, and a new service; no subscription. *)
Lemma first_new_run config w :
  FirstService.new config w =
    (Ok (length (services w)),
     {| clients :=
          clients w ++
            [match URL_parse P (url config) with
             | Some href =>
                 match refusal (Call "connect" [VURL href; VObj (options config)])
                         (dnew (surreal P)) with
                 | None =>
                     record (Call "connect" [VURL href; VObj (options config)])
                       fresh_client
                 | Some _ => fresh_client
                 end
             | None => fresh_client
             end];
        services := services w ++ [fresh_service (length (clients w)) config];
        injectors := injectors w;
        subscriptions := subscriptions w |}).
Proof.
  unfold FirstService.new, new_Surreal. unfold bind at 1. cbv zeta.
  unfold bind at 1. simpl services. unfold bind at 1.
  unfold FirstService.connect. cbv zeta. unfold bind at 1. unfold new_URL.
  destruct (URL_parse P (url config)) as [href|]; simpl; [|reflexivity].
  unfold db_call, self. unfold bind at 1. simpl services. rewrite lookup_snoc. simpl.
  rewrite interact_run. simpl clients. rewrite lookup_snoc. simpl dst.
  simpl refusal. destruct (dthrows _ _ _ (dnew (surreal P))); [reflexivity|].
  unfold served, set_clients, ret. simpl. by rewrite insert_snoc.
Qed.

Lemma first_invoke_run this o args w :
  first_invoke this o args w =
    wrapped this (Call (first_driver_method o) (if first_takes_none o then [] else args)) w.
Proof. destruct o; simpl; apply wrap_call. Qed.

Lemma first_create_injector_run parent imports w :
  FirstModule.create_injector parent imports w =
    if match parent with
       | Some p => bool_decide (is_Some (injectors w !! p))
       | None => true
       end
    then (Ok (length (injectors w)),
          set_injectors (fun js => js ++ [created parent imports]) w)
    else (Throw dangling, w).
Proof.
  unfold FirstModule.create_injector. unfold bind at 1.
  destruct parent as [p|]; [|reflexivity].
  unfold bind at 1. by destruct (injectors w !! p) as [i|] eqn:Hp.
Qed.
Lemma first_inject_service_run j w :
  FirstModule.inject_service j w =
    match owner w j with
    | None => (Throw dangling, w)
    | Some o =>
        match injectors w !! o with
        | None => (Throw dangling, w)
        | Some i =>
            match service_instance i with
            | Built s => (Ok s, w)
            | Circular => (Throw circular_dependency, w)
            | NotYet =>
                match FirstModule.build o i
                        (set_injectors (fun js => <[o := set_instance Circular i]> js) w)
                with
                | (Ok s, w') =>
                    (Ok s, set_injectors (fun js => <[o := set_instance (Built s) i]> js) w')
                | (Throw e, w') => (Throw e, w')
                end
            end
        end
    end.
Proof.
  unfold FirstModule.inject_service. unfold bind at 1.
  destruct (owner w j) as [o|]; simpl; [|done].
  unfold bind at 1. destruct (injectors w !! o) as [i|]; simpl; [|done].
  destruct (service_instance i); [|done|done].
  unfold bind at 1. unfold modify at 1. unfold bind at 1.
  by destruct (FirstModule.build o i _) as [[s|e] w'].
Qed.

Lemma first_build_run o i w cfg :
  service_provider i = true -> resolve w config_provider o = Some cfg ->
  FirstModule.build o i w = FirstService.new cfg w.
Proof.
  intros Hp Hr. unfold FirstModule.build, FirstModule.SurrealFactory.
  rewrite Hp. unfold bind at 1. unfold inject_config. by rewrite Hr.
Qed.
End FirstRevision.

(** ** More helpers *)

Section MoreFacts.
Context {P : Platform}.
Implicit Types (w : world P) (sv : service) (cl : client P).

Lemma obey_keeps_cell this b x w c :
  (exists sv, services w !! this = Some sv /\ SurrealService.cell b sv = Some x) ->
  exists sv, services (obey w c) !! this = Some sv /\ SurrealService.cell b sv = Some x.
Proof.
  intros H. destruct c as [parent imports | a]; simpl.
  - rewrite create_injector_run.
    destruct (match parent with Some _ => _ | None => _ end); [|done].
    by destruct (_ && _).
  - by apply step_keeps_cell.
Qed.

Lemma binding_service w s b :
  bindings w !! s = Some b ->
  exists sv, services w !! s = Some sv /\ db sv = b.1 /\ config sv = b.2.
Proof.
  unfold bindings. rewrite list_lookup_fmap.
  destruct (services w !! s) as [sv|]; [|discriminate]. intros [= <-]. eauto.
Qed.

Lemma run_older_parents l w :
  older_parents (injectors w) -> older_parents (injectors (run_commands l w)).
Proof.
  revert w. induction l as [|c l IH]; intros w Hwf; simpl; [done|].
  apply IH. destruct c as [parent imports | a]; simpl.
  - eapply create_injector_older; [exact Hwf | apply surjective_pairing].
  - by apply step_older_parents.
Qed.
End MoreFacts.

(** ** The further properties *)

Section Further.
Context {P : Platform}.
Implicit Types (w : world P) (sv : service) (cl : client P).

(** X1.  A method call touches one thing only, the client of its adapter:
    it subscribes to nothing, changes no service object and no injector,
    creates no client, and leaves every other client as it was.  A call
    that throws changes nothing at all. *)
Theorem invoke_touches_one_client this o args w :
  let w' := (invoke this o args w).2 in
  services w' = services w /\ injectors w' = injectors w /\
  subscriptions w' = subscriptions w /\
  length (clients w') = length (clients w) /\
  (forall sv c, services w !! this = Some sv -> c <> db sv ->
     clients w' !! c = clients w !! c) /\
  (forall e, (invoke this o args w).1 = Throw e -> w' = w).
Proof.
  intros w'. subst w'.
  destruct (invoke this o args w) as [[s|e] w'] eqn:Hrun; simpl.
  - apply invoke_Ok in Hrun as (sv & cl & r & Hs & Hc & _ & _ & ->).
    repeat split; try done.
    + apply served_length.
    + intros sv' c Hs' Hne. rewrite Hs in Hs'. injection Hs' as <-.
      by apply served_clients_ne.
  - apply invoke_Throw in Hrun as ->. repeat split; done.
Qed.

(** X2.  Reading an accessor sends nothing to the driver and subscribes to
    nothing: clients, injectors and subscriptions stay as they are, every
    service keeps its client and its configuration, and no other service
    object changes. *)
Theorem read_touches_one_service this a w :
  let w' := (SurrealService.computed this a w).2 in
  clients w' = clients w /\ injectors w' = injectors w /\
  subscriptions w' = subscriptions w /\ bindings w' = bindings w /\
  forall s, s <> this -> services w' !! s = services w !! s.
Proof.
  intros w'. subst w'. rewrite computed_run.
  destruct (services w !! this) as [sv|] eqn:Hs; [|done].
  destruct (SurrealService.cell a sv); [done|].
  destruct (clients w !! db sv) as [cl|]; [|done].
  simpl. repeat split; try done.
  - unfold bindings. simpl. rewrite list_fmap_insert, fill_db, fill_config.
    apply list_insert_id. by rewrite list_lookup_fmap, Hs.
  - intros s Hne. by apply list_lookup_insert_ne.
Qed.

(** X4.  The adapter's [db] and [config] are never reassigned: over a whole
    run every service object stays bound to the client and the
    configuration it was built with. *)
Theorem bindings_are_for_life l w s sv :
  services w !! s = Some sv ->
  exists sv', services (run_commands l w) !! s = Some sv' /\
              db sv' = db sv /\ config sv' = config sv.
Proof.
  intros Hs. destruct (run_bindings l w) as [bs Hb].
  assert (bindings (run_commands l w) !! s = Some (db sv, config sv)) as H.
  { rewrite Hb. apply lookup_app_l_Some. unfold bindings.
    by rewrite list_lookup_fmap, Hs. }
  apply binding_service in H as (sv' & Hs' & Hdb & Hcfg). eauto.
Qed.

(** X5.  A stream that has been returned keeps its outcome: whatever the
    application does afterwards, a subscriber that comes late is sent
    exactly what an early one was. *)
Theorem stream_outcome_is_stable this o args w s w' l :
  invoke this o args w = (Ok s, w') ->
  settlement (run_commands l w') (source s) = settlement w' (source s) /\
  emissions (run_commands l w') s = emissions w' s.
Proof.
  intros H. apply invoke_Ok in H as (sv & cl & r & Hs & Hc & _ & -> & ->).
  assert (settlement (run_commands l (served (db sv) r cl w))
            {| pclient := db sv; pindex := length (journal cl) |} =
          settlement (served (db sv) r cl w)
            {| pclient := db sv; pindex := length (journal cl) |}) as H.
  { apply run_keeps_settlement. rewrite served_settlement by done. eauto. }
  split; [exact H|]. unfold emissions. simpl source. by rewrite H.
Qed.

(** X6.  In every world an application can get to, each service object is
    bound to a client that exists, and no two service objects are bound to
    the same client. *)
Theorem adapters_never_share_a_client w s1 s2 sv1 sv2 :
  reachable w ->
  services w !! s1 = Some sv1 -> services w !! s2 = Some sv2 ->
  is_Some (clients w !! db sv1) /\ (db sv1 = db sv2 -> s1 = s2).
Proof.
  intros Hr H1 H2. apply reachable_sound in Hr as (Hlt & Hnd & _).
  assert (forall s sv, services w !! s = Some sv ->
            bindings w !! s = Some (db sv, config sv)) as Hb.
  { intros s sv Hs. unfold bindings. by rewrite list_lookup_fmap, Hs. }
  split.
  - apply lookup_lt_is_Some_2. exact (Hlt _ _ (Hb _ _ H1)).
  - intros Heq. eapply (NoDup_lookup _ s1 s2 (db sv1) Hnd).
    + by rewrite list_lookup_fmap, (Hb _ _ H1).
    + by rewrite list_lookup_fmap, (Hb _ _ H2), Heq.
Qed.

(** X8.  Once an accessor has been read, it answers the value of that
    first read for the rest of the run, whatever the application and the
    driver have been through since. *)
Theorem accessor_answers_its_first_value this a v w w1 l :
  SurrealService.computed this a w = (Ok v, w1) ->
  SurrealService.computed this a (run_commands l w1) = (Ok v, run_commands l w1).
Proof.
  intros H.
  assert (exists sv, services w1 !! this = Some sv /\ SurrealService.cell a sv = Some v)
    as Hcell.
  { rewrite computed_run in H.
    destruct (services w !! this) as [sv|] eqn:Hs; [|discriminate].
    destruct (SurrealService.cell a sv) eqn:Ha.
    - injection H as <- <-. eauto.
    - destruct (clients w !! db sv) as [cl|]; [|discriminate].
      injection H as <- <-. simpl. eexists.
      rewrite list_lookup_insert_eq by (by eapply lookup_lt_Some).
      split; [done|]. apply fill_cell. }
  clear H. revert w1 Hcell.
  induction l as [|x l IH]; intros w1 Hcell; simpl.
  - destruct Hcell as (sv & Hs & Hc). by rewrite computed_run, Hs, Hc.
  - apply IH. by apply obey_keeps_cell.
Qed.

(** X9.  [connect()] uses the configuration fixed at construction: called
    at any later point of a run, with any arguments, it sends the driver
    the very request the constructor sent. *)
Theorem connect_repeats_the_first_request inj w s w' l args :
  SurrealFactory inj w = (Ok s, w') ->
  exists r sv,
    services w' !! s = Some sv /\ requests_of w' (db sv) = [r] /\
    forall s2 w3, invoke s Op.connect args (run_commands l w') = (Ok s2, w3) ->
      request_of w3 (source s2) = Some r.
Proof.
  intros H. apply SurrealFactory_Ok in H as (cfg & href & _ & Hurl & -> & ->).
  exists (Call "connect" [VURL href; VObj (options cfg)]),
         (fresh_service (length (clients w)) cfg).
  assert (services (constructed cfg href w) !! length (services w) =
            Some (fresh_service (length (clients w)) cfg)) as Hs by apply lookup_snoc.
  split; [exact Hs|]. split; [apply constructed_requests|].
  intros s2 w3 Hrun.
  destruct (run_keeps_binding l _ _ _ Hs) as (sv' & Hs' & _ & Hcfg).
  apply invoke_Ok in Hrun as (sv2 & cl & r & Hs2 & Hc & Hr & -> & ->).
  rewrite Hs' in Hs2. injection Hs2 as <-.
  simpl in Hr. rewrite Hcfg in Hr. simpl in Hr. rewrite Hurl in Hr. simpl in Hr.
  injection Hr as <-. by apply served_request.
Qed.

(** X10.  A [run] call whose second argument is not a string hands the
    driver the name and the third argument: what was given in second
    place, the parameter list of the two-parameter form, is not passed
    on. *)
Theorem run_passes_on_its_third_parameter this args w s w' :
  typeof_is_string (arg 1 args) = false ->
  invoke this Op.run args w = (Ok s, w') ->
  exists sv, services w !! this = Some sv /\
    requests_of w' (db sv) =
      requests_of w (db sv) ++ [Call "run" [arg 0 args; arg 2 args]].
Proof.
  intros Hstr H. apply invoke_Ok in H as (sv & cl & r & Hs & Hc & Hr & -> & ->).
  simpl in Hr. rewrite Hstr in Hr. injection Hr as <-.
  exists sv. split; [done|]. by apply served_requests.
Qed.

(** X11.  Without a registration the adapter cannot be had: in an
    application whose root injector registers nothing, retrieving the
    adapter throws the missing-provider error for the configuration token.
    The driver client has been created by then, and stays behind, sent
    nothing; no service object is kept and nothing is subscribed. *)
Theorem adapter_needs_a_registration w0 :
  let r := length (injectors w0) in
  let w1 := (create_injector None [] w0).2 in
  exists w2,
    inject_service r w1 =
      (Throw (VError "NullInjectorError"
                ("No provider for InjectionToken " ++ SURREAL_CONFIG_TOKEN)%string), w2) /\
    clients w2 = clients w1 ++ [fresh_client] /\
    services w2 = services w1 /\ subscriptions w2 = subscriptions w1.
Proof.
  intros r w1. subst w1 r. rewrite create_injector_run. simpl.
  set (i := created None []). set (w1 := set_injectors _ w0).
  assert (injectors w1 !! length (injectors w0) = Some i) as Hi by apply lookup_snoc.
  assert (length (injectors w1) = S (length (injectors w0))) as Hlen.
  { subst w1. simpl. rewrite length_app. simpl. lia. }
  assert (clients w1 = clients w0 /\ services w1 = services w0 /\
          subscriptions w1 = subscriptions w0) as (Hw1 & Hw2 & Hw3) by done.
  clearbody w1.
  rewrite inject_service_run.
  assert (owner w1 (length (injectors w0)) = Some (length (injectors w0))) as ->.
  { unfold owner. rewrite Hlen. simpl. by rewrite Hi. }
  rewrite Hi. change (service_instance i) with NotYet. cbv iota.
  set (wc := set_injectors _ w1).
  assert (resolve wc config_provider (length (injectors w0)) = None) as Hres.
  { unfold resolve. subst wc. simpl injectors. rewrite length_insert, Hlen. simpl.
    rewrite list_lookup_insert_eq by (rewrite Hlen; lia). reflexivity. }
  assert (clients wc = clients w1 /\ services wc = services w1 /\
          subscriptions wc = subscriptions w1) as (Hc1 & Hc2 & Hc3) by done.
  clearbody wc.
  unfold build. change (service_provider i) with false. cbv iota.
  rewrite new_run. cbv zeta. rewrite Hres.
  eexists. split; [reflexivity|]. simpl. rewrite Hc1, Hc2, Hc3, Hw1, Hw2, Hw3.
  repeat split.
Qed.

(** X12.  In the first revision building the service never throws,
    whatever the endpoint and whatever the driver does: the service and
    its client are created, the client is sent [connect] when the endpoint
    parses and the driver takes the call, and nothing otherwise, and
    nothing is subscribed. *)
Theorem first_revision_construction_never_throws config w :
  exists w',
    FirstService.new config w = (Ok (length (services w)), w') /\
    services w' = services w ++ [fresh_service (length (clients w)) config] /\
    length (clients w') = S (length (clients w)) /\
    subscriptions w' = subscriptions w /\
    requests_of w' (length (clients w)) =
      match URL_parse P (url config) with
      | Some href =>
          match dthrows (surreal P) "connect" [VURL href; VObj (options config)]
                  (dnew (surreal P)) with
          | None => [Call "connect" [VURL href; VObj (options config)]]
          | Some _ => []
          end
      | None => []
      end.
Proof.
  eexists. split; [apply first_new_run|]. simpl.
  split; [done|]. split; [rewrite length_app; simpl; lia|]. split; [done|].
  unfold requests_of, journal_of. simpl. rewrite lookup_snoc.
  destruct (URL_parse P (url config)); [|done].
  by destruct (dthrows _ _ _ _).
Qed.

(** X13.  In the first revision every method hands its argument list to
    the driver exactly as it got it, [insert] and [run] included; the
    four methods declared without parameters pass none, and [queryRaw]
    goes to the driver's [query_raw]. *)
Theorem first_revision_forwards_verbatim this o args w s w' :
  first_invoke this o args w = (Ok s, w') ->
  exists sv,
    services w !! this = Some sv /\
    requests_of w' (db sv) =
      requests_of w (db sv) ++
        [Call (first_driver_method o) (if first_takes_none o then [] else args)] /\
    request_of w' (source s) =
      Some (Call (first_driver_method o) (if first_takes_none o then [] else args)).
Proof.
  rewrite first_invoke_run. intros H.
  apply wrapped_Ok in H as (sv & cl & Hs & Hc & -> & ->).
  exists sv. split; [done|]. split; [by apply served_requests | by apply served_request].
Qed.

(** X14.  The module of the first revision has no guard: registering it
    in an injector below any existing one goes through, whatever is
    registered above, and the first retrieval there builds one more
    service on one more client, bound to the configuration registered
    there. *)
Theorem first_revision_accepts_nested_registration p cfg w0 :
  is_Some (injectors w0 !! p) ->
  exists w1 w2,
    FirstModule.create_injector (Some p) [FirstModule.forRoot cfg] w0 =
      (Ok (length (injectors w0)), w1) /\
    FirstModule.inject_service (length (injectors w0)) w1 =
      (Ok (length (services w0)), w2) /\
    length (clients w2) = S (length (clients w0)) /\
    services w2 !! length (services w0) =
      Some (fresh_service (length (clients w0)) cfg).
Proof.
  intros Hp. rewrite first_create_injector_run.
  rewrite bool_decide_eq_true_2 by done.
  set (i := created (Some p) [FirstModule.forRoot cfg]). set (w1 := set_injectors _ w0).
  exists w1. eexists. split; [reflexivity|].
  assert (injectors w1 !! length (injectors w0) = Some i) as Hi by apply lookup_snoc.
  rewrite first_inject_service_run.
  rewrite (owner_of_provider w1 _ i Hi eq_refl), Hi.
  change (service_instance i) with NotYet. cbv iota.
  set (wc := set_injectors _ w1).
  assert (injectors wc !! length (injectors w0) = Some (set_instance Circular i)) as Hc.
  { subst wc w1. simpl. rewrite insert_snoc. apply lookup_snoc. }
  rewrite (first_build_run _ i wc cfg eq_refl
             (resolve_here wc config_provider _ _ cfg Hc eq_refl)).
  rewrite first_new_run. simpl.
  split; [reflexivity|]. simpl. split.
  - rewrite length_app. simpl. lia.
  - apply lookup_snoc.
Qed.

(** In every world an application can get to, the injectors form a tree:
    each one points at an injector created before it. *)
Lemma reachable_tree_is_well_formed w :
  reachable w -> older_parents (injectors w).
Proof.
  intros [l ->]. apply run_older_parents. apply older_parents_nil.
Qed.
End Further.

(** ** The further properties at work *)

Section FurtherWitnesses.
Import Scenario Tour.

Lemma twins_reachable : reachable twins.
Proof. exists two_scopes. reflexivity. Qed.

(** [ping()] in the README application. *)
Lemma invoke_touches_one_client_witness :
  services pinged = services app /\ injectors pinged = injectors app /\
  subscriptions pinged = subscriptions app /\
  length (clients pinged) = length (clients app) /\
  (forall sv c, services app !! 0 = Some sv -> c <> db sv ->
     clients pinged !! c = clients app !! c) /\
  (forall e, (invoke 0 Op.ping [] app).1 = Throw e -> pinged = app).
Proof. exact (invoke_touches_one_client (P:=Demo.up) 0 Op.ping [] app). Defined.

(** [status()] in the README application. *)
Lemma read_touches_one_service_witness :
  clients status_read = clients app /\ injectors status_read = injectors app /\
  subscriptions status_read = subscriptions app /\
  bindings status_read = bindings app /\
  forall s, s <> 0 -> services status_read !! s = services app !! s.
Proof.
  exact (read_touches_one_service (P:=Demo.up) 0 SurrealService.Status app).
Defined.

Lemma bindings_are_for_life_witness :
  services app !! 0 = Some app_service /\
  exists sv', services (run_commands afternoon app) !! 0 = Some sv' /\
              db sv' = db app_service /\ config sv' = config app_service.
Proof.
  assert (services app !! 0 = Some app_service) as H by (vm_compute; reflexivity).
  split; [exact H|].
  exact (bindings_are_for_life (P:=Demo.up) afternoon app 0 app_service H).
Defined.

(** The stream of [ping()], before and after the rest of the day. *)
Lemma stream_outcome_is_stable_witness :
  invoke 0 Op.ping [] app = (Ok ping_stream, pinged) /\
  settlement (run_commands afternoon pinged) (source ping_stream) =
    settlement pinged (source ping_stream) /\
  emissions (run_commands afternoon pinged) ping_stream = emissions pinged ping_stream.
Proof.
  assert (invoke 0 Op.ping [] app = (Ok ping_stream, pinged)) as H
    by (vm_compute; reflexivity).
  split; [exact H|].
  exact (stream_outcome_is_stable (P:=Demo.up) 0 Op.ping [] app _ _ afternoon H).
Defined.

(** The two adapters of the two lazily loaded parts. *)
Lemma adapters_never_share_a_client_witness :
  let sv1 := fresh_service 0 Demo.surrealConfig in
  let sv2 := fresh_service 1 otherConfig in
  reachable twins /\ services twins !! 0 = Some sv1 /\ services twins !! 1 = Some sv2 /\
  is_Some (clients twins !! db sv1) /\ (db sv1 = db sv2 -> 0 = 1).
Proof.
  intros sv1 sv2.
  assert (services twins !! 0 = Some sv1) as H1 by (vm_compute; reflexivity).
  assert (services twins !! 1 = Some sv2) as H2 by (vm_compute; reflexivity).
  split; [exact twins_reachable|]. split; [exact H1|]. split; [exact H2|].
  exact (adapters_never_share_a_client (P:=Demo.up) twins 0 1 sv1 sv2
           twins_reachable H1 H2).
Defined.

Lemma accessor_answers_its_first_value_witness :
  SurrealService.computed 0 SurrealService.Status app = (Ok (VStr "connected"), status_read) /\
  SurrealService.computed 0 SurrealService.Status (run_commands afternoon status_read) =
    (Ok (VStr "connected"), run_commands afternoon status_read).
Proof.
  assert (SurrealService.computed 0 SurrealService.Status app =
            (Ok (VStr "connected"), status_read)) as H by (vm_compute; reflexivity).
  split; [exact H|].
  exact (accessor_answers_its_first_value (P:=Demo.up) 0 SurrealService.Status _ app _
           afternoon H).
Defined.

Lemma connect_repeats_the_first_request_witness :
  let w := registered Demo.up Demo.surrealConfig in
  let w' := (SurrealFactory 0 w).2 in
  SurrealFactory 0 w = (Ok 0, w') /\
  exists r sv,
    services w' !! 0 = Some sv /\ requests_of w' (db sv) = [r] /\
    forall s2 w3, invoke 0 Op.connect [VStr "ignored"] (run_commands afternoon w') =
                    (Ok s2, w3) ->
      request_of w3 (source s2) = Some r.
Proof.
  intros w w'.
  assert (SurrealFactory 0 w = (Ok 0, w')) as H by (vm_compute; reflexivity).
  split; [exact H|].
  exact (connect_repeats_the_first_request (P:=Demo.up) 0 w 0 w' afternoon
           [VStr "ignored"] H).
Defined.

(** [run("fn::greet", ["a"])] in the README application. *)
Lemma run_passes_on_its_third_parameter_witness :
  typeof_is_string (arg 1 greet) = false /\
  invoke 0 Op.run greet app =
    (Ok (from {| pclient := 0; pindex := 1 |}), (invoke 0 Op.run greet app).2) /\
  exists sv, services app !! 0 = Some sv /\
    requests_of (invoke 0 Op.run greet app).2 (db sv) =
      requests_of app (db sv) ++ [Call "run" [arg 0 greet; arg 2 greet]].
Proof.
  assert (typeof_is_string (arg 1 greet) = false) as H1 by reflexivity.
  assert (invoke 0 Op.run greet app =
            (Ok (from {| pclient := 0; pindex := 1 |}), (invoke 0 Op.run greet app).2))
    as H2 by (vm_compute; reflexivity).
  split; [exact H1|]. split; [exact H2|].
  exact (run_passes_on_its_third_parameter (P:=Demo.up) 0 greet app _ _ H1 H2).
Defined.

(** [insert("", {name: "a"})] in the first revision. *)
Lemma first_revision_forwards_verbatim_witness :
  let args := [VStr ""; record_a] in
  let w' := (first_invoke 0 FirstOp.insert args first_app).2 in
  first_invoke 0 FirstOp.insert args first_app =
    (Ok (from {| pclient := 0; pindex := 1 |}), w') /\
  exists sv,
    services first_app !! 0 = Some sv /\
    requests_of w' (db sv) = requests_of first_app (db sv) ++ [Call "insert" args] /\
    request_of w' (source (from {| pclient := 0; pindex := 1 |})) =
      Some (Call "insert" args).
Proof.
  intros args w'.
  assert (first_invoke 0 FirstOp.insert args first_app =
            (Ok (from {| pclient := 0; pindex := 1 |}), w')) as H
    by (vm_compute; reflexivity).
  split; [exact H|].
  exact (first_revision_forwards_verbatim (P:=Demo.up) 0 FirstOp.insert args
           first_app _ _ H).
Defined.

(** A second registration below the first one, in the first revision. *)
Lemma first_revision_accepts_nested_registration_witness :
  is_Some (injectors first_app !! 0) /\
  exists w1 w2,
    FirstModule.create_injector (Some 0) [FirstModule.forRoot otherConfig] first_app =
      (Ok (length (injectors first_app)), w1) /\
    FirstModule.inject_service (length (injectors first_app)) w1 =
      (Ok (length (services first_app)), w2) /\
    length (clients w2) = S (length (clients first_app)) /\
    services w2 !! length (services first_app) =
      Some (fresh_service (length (clients first_app)) otherConfig).
Proof.
  assert (is_Some (injectors first_app !! 0)) as H by (vm_compute; eauto).
  split; [exact H|].
  exact (first_revision_accepts_nested_registration (P:=Demo.up) 0 otherConfig
           first_app H).
Defined.

(** The same second registration is refused by the current revision. *)
Example current_revision_refuses_it :
  create_injector (Some 0) [SurrealModule.forRoot otherConfig] app =
    (Throw SurrealModule.already_loaded, app).
Proof. vm_compute; reflexivity. Qed.
End FurtherWitnesses.
